(** * Case Closed agents: a shallow embedding of [agent.py] and [sample_agent.py]

    The two Flask agents share the flood-fill estimator and the state
    ingestion; [agent.py] adds the suicide checker, the generic selector and
    the three-phase corridor strategy.  Python integers are [Z], sets of
    cells are [gset (Z * Z)], deques and lists are [list], and a Python
    exception is the [Raise] outcome of the [result] type. *)

From stdpp Require Import base numbers list sets gmap strings sorting.

Open Scope Z_scope.

(** ** Outcomes of a Python call *)

Inductive exn := IndexError | ZeroDivisionError | UnboundLocalError.

(** [OutOfFuel] is the only outcome that is not a Python one: it marks a
    [while] loop cut off by the model's iteration budget. *)
Inductive result (A : Type) :=
  | Ok (a : A)
  | Raise (e : exn)
  | OutOfFuel.
Arguments Ok {A} a.
Arguments Raise {A} e.
Arguments OutOfFuel {A}.

#[global] Instance result_bind : MBind result := λ A B k m,
  match m with
  | Ok a => k a
  | Raise e => Raise e
  | OutOfFuel => OutOfFuel
  end.

#[global] Instance result_ret : MRet result := λ A, Ok.

Fixpoint rmapM {A B} (f : A → result B) (l : list A) : result (list B) :=
  match l with
  | [] => Ok []
  | a :: l' => b ← f a ; bs ← rmapM f l' ; Ok (b :: bs)
  end.

(** ** The data model *)

Definition Cell : Type := Z * Z.

Inductive Direction := UP | DOWN | LEFT | RIGHT.

#[global] Instance Direction_eq_dec : EqDecision Direction.
Proof. solve_decision. Defined.

Record Board := mkBoard {
  width : Z;
  height : Z;
  grid : list (list Z)
}.

(** What the agents import from [case_closed_game]: the iteration order and
    the deltas of the [Direction] enum, the two cell markers and the board's
    cell query ([None] when the query raises).  A Python [Enum] iterates over
    each of its members once, and members with equal values would be
    aliases. *)
Class CaseClosedGame := {
  Direction_members : list Direction;
  value : Direction → Z * Z;
  EMPTY : Z;
  AGENT : Z;
  get_cell_state : Board → Cell → option Z;
  members_NoDup : NoDup Direction_members;
  members_all : ∀ d, d ∈ Direction_members;
  value_inj : ∀ d1 d2, value d1 = value d2 → d1 = d2
}.

(** [a % b] of Python: floor remainder, [ZeroDivisionError] on [b = 0]. *)
Definition pymod (a b : Z) : result Z :=
  if decide (b = 0) then Raise ZeroDivisionError else Ok (a `mod` b).

Definition opt_get {A} (o : option A) (e : exn) : result A :=
  match o with Some a => Ok a | None => Raise e end.

Section FloodFill.
Context `{CaseClosedGame}.

(** [((x + dx) % w, (y + dy) % h)], evaluated left to right. *)
Definition wrap_step (w h : Z) (c : Cell) (d : Direction) : result Cell :=
  nx ← pymod (c.1 + (value d).1) w ;
  ny ← pymod (c.2 + (value d).2) h ;
  Ok (nx, ny).

(** The same expression where [w] and [h] are known not to be zero,
    because it was evaluated before with the same [w] and [h]. *)
Definition wrap_cell (w h : Z) (c : Cell) (d : Direction) : Cell :=
  ((c.1 + (value d).1) `mod` w, (c.2 + (value d).2) `mod` h).

(** One run of the inner [for] of [flood_fill_space]: the queue after the
    neighbours of [c] that are neither visited nor occupied are appended. *)
Fixpoint enqueue_neighbours (w h : Z) (c : Cell) (visited occupied : gset Cell)
    (ds : list Direction) (queue : list Cell) : result (list Cell) :=
  match ds with
  | [] => Ok queue
  | d :: ds' =>
      n ← wrap_step w h c d ;
      if decide ((n ∉ visited) ∧ (n ∉ occupied))
      then enqueue_neighbours w h c visited occupied ds' (queue ++ [n])
      else enqueue_neighbours w h c visited occupied ds' queue
  end.

(** The [while queue:] loop; one unit of fuel per iteration. *)
Fixpoint flood_fill_loop (fuel : nat) (w h : Z) (occupied visited : gset Cell)
    (queue : list Cell) : result (gset Cell) :=
  match queue with
  | [] => Ok visited
  | c :: rest =>
      match fuel with
      | O => OutOfFuel
      | S fuel' =>
          if decide (c ∈ visited ∨ c ∈ occupied)
          then flood_fill_loop fuel' w h occupied visited rest
          else
            let visited' := {[ c ]} ∪ visited in
            queue' ← enqueue_neighbours w h c visited' occupied
                       Direction_members rest ;
            flood_fill_loop fuel' w h occupied visited' queue'
      end
  end.

(** The residues [a % w] can take: [0 .. w-1] for a positive [w],
    [w+1 .. 0] for a negative one. *)
Definition residues (w : Z) : list Z :=
  if decide (0 < w) then seqZ 0 w else seqZ (w + 1) (- w).

Definition board_cells (w h : Z) : list Cell :=
  x ← residues w; y ← residues h; [(x, y)].

(** Every iteration either discards a queue entry or visits a new cell and
    appends at most one entry per direction, and only the start cell and
    wrapped cells are ever visited. *)
Definition flood_fill_fuel (w h : Z) : nat :=
  S (length Direction_members * S (length (board_cells w h))).

Definition flood_fill_visited (pos : Cell) (board : Board)
    (occupied : gset Cell) : result (gset Cell) :=
  let w := width board in
  let h := height board in
  flood_fill_loop (flood_fill_fuel w h) w h occupied ∅ [pos].

Definition flood_fill_space (pos : Cell) (board : Board)
    (occupied : gset Cell) : result Z :=
  visited ← flood_fill_visited pos board occupied ;
  Ok (Z.of_nat (size visited)).

End FloodFill.

(** ** Agents, game and state-sync payload *)

(** [agent_length] is the [length] attribute of an agent. *)
Record Agent := mkAgent {
  trail : list Cell;
  direction : Direction;
  alive : bool;
  agent_length : Z;
  boosts_remaining : Z
}.

Record Game := mkGame {
  board : Board;
  agent1 : Agent;
  agent2 : Agent;
  turns : Z
}.

(** The JSON body of a state sync: every known key is optional and, when
    present, carries a value of its wire type, so that [int], [bool] and
    [tuple] leave it as it is.  [p_other_keys] are the keys the agents never
    read; they only matter for the truth value of the dict. *)
Record Payload := mkPayload {
  p_board : option (list (list Z));
  p_agent1_trail : option (list Cell);
  p_agent2_trail : option (list Cell);
  p_agent1_length : option Z;
  p_agent2_length : option Z;
  p_agent1_alive : option bool;
  p_agent2_alive : option bool;
  p_agent1_boosts : option Z;
  p_agent2_boosts : option Z;
  p_turn_count : option Z;
  p_other_keys : list string
}.

Definition empty_payload : Payload :=
  mkPayload None None None None None None None None None None [].

Definition has_key {A} (field : option A) : bool :=
  match field with Some _ => true | None => false end.

(** Truth value of the dict: it has at least one key. *)
Definition payload_truthy (data : Payload) : bool :=
  has_key (p_board data) || has_key (p_agent1_trail data)
  || has_key (p_agent2_trail data) || has_key (p_agent1_length data)
  || has_key (p_agent2_length data) || has_key (p_agent1_alive data)
  || has_key (p_agent2_alive data) || has_key (p_agent1_boosts data)
  || has_key (p_agent2_boosts data) || has_key (p_turn_count data)
  || negb (bool_decide (p_other_keys data = [])).

(** The module-level globals both agents keep. *)
Record Globals := mkGlobals {
  GLOBAL_GAME : Game;
  LAST_POSTED_STATE : Payload
}.

Definition set_grid (g : list (list Z)) (gm : Game) : Game :=
  mkGame (mkBoard (width (board gm)) (height (board gm)) g)
         (agent1 gm) (agent2 gm) (turns gm).
Definition set_agent1 (f : Agent → Agent) (gm : Game) : Game :=
  mkGame (board gm) (f (agent1 gm)) (agent2 gm) (turns gm).
Definition set_agent2 (f : Agent → Agent) (gm : Game) : Game :=
  mkGame (board gm) (agent1 gm) (f (agent2 gm)) (turns gm).
Definition set_turns (t : Z) (gm : Game) : Game :=
  mkGame (board gm) (agent1 gm) (agent2 gm) t.

Definition set_trail (t : list Cell) (a : Agent) : Agent :=
  mkAgent t (direction a) (alive a) (agent_length a) (boosts_remaining a).
Definition set_length (n : Z) (a : Agent) : Agent :=
  mkAgent (trail a) (direction a) (alive a) n (boosts_remaining a).
Definition set_alive (b : bool) (a : Agent) : Agent :=
  mkAgent (trail a) (direction a) b (agent_length a) (boosts_remaining a).
Definition set_boosts (n : Z) (a : Agent) : Agent :=
  mkAgent (trail a) (direction a) (alive a) (agent_length a) n.

(** [if key in data: target = data[key]] *)
Definition if_present {A} (field : option A) (assign : A → Game → Game)
    (gm : Game) : Game :=
  match field with
  | Some v => assign v gm
  | None => gm
  end.

(** [_update_local_game_from_post], the same in both agents. *)
Definition _update_local_game_from_post (data : Payload) (gl : Globals)
    : Globals :=
  let gm := GLOBAL_GAME gl in
  let gm := if_present (p_board data) set_grid gm in
  let gm := if_present (p_agent1_trail data) (λ t, set_agent1 (set_trail t)) gm in
  let gm := if_present (p_agent2_trail data) (λ t, set_agent2 (set_trail t)) gm in
  let gm := if_present (p_agent1_length data) (λ n, set_agent1 (set_length n)) gm in
  let gm := if_present (p_agent2_length data) (λ n, set_agent2 (set_length n)) gm in
  let gm := if_present (p_agent1_alive data) (λ b, set_agent1 (set_alive b)) gm in
  let gm := if_present (p_agent2_alive data) (λ b, set_agent2 (set_alive b)) gm in
  let gm := if_present (p_agent1_boosts data) (λ n, set_agent1 (set_boosts n)) gm in
  let gm := if_present (p_agent2_boosts data) (λ n, set_agent2 (set_boosts n)) gm in
  let gm := if_present (p_turn_count data) set_turns gm in
  mkGlobals gm data.

(** The keys whose value [_update_local_game_from_post] converts with
    [tuple] or [int].  [bool] accepts every value and the board is assigned
    as it comes, so the writes of the other keys cannot raise. *)
Inductive Key :=
  | key_agent1_trail
  | key_agent2_trail
  | key_agent1_length
  | key_agent2_length
  | key_agent1_boosts
  | key_agent2_boosts
  | key_turn_count.

#[global] Instance Key_eq_dec : EqDecision Key.
Proof. solve_decision. Defined.

(** What [request.get_json()] makes of a POST request: it raises when the
    request carries no JSON it can read, and otherwise returns the parsed
    value, [None] for [null] or a dict.  A dict is given by the entries
    whose values are of their wire type, as a [Payload], and by the keys of
    [Key] whose values are not and on which the conversion raises (as
    [int(None)] and [tuple(3)] do); a key listed in [rejected] counts as
    rejected whatever the [Payload] holds for it. *)
Inductive Body :=
  | NoJson
  | JsonNull
  | JsonDict (data : Payload) (rejected : list Key).

(** Truth value of a dict: it has at least one key. *)
Definition dict_truthy (data : Payload) (rejected : list Key) : bool :=
  payload_truthy data || negb (bool_decide (rejected = [])).

(** How a handler ends: it returns an HTTP status, or an exception leaves it
    at the line that raised. *)
Inductive Response :=
  | Status (code : Z)
  | Raised.

(** [if key in data: target = convert(data[key])] where the conversion may
    raise: [None] when the value under [k] is rejected. *)
Definition if_present_converted {A} (rejected : list Key) (k : Key)
    (field : option A) (assign : A → Game → Game) (gm : Game)
    : option Game :=
  if decide (k ∈ rejected) then None
  else Some (if_present field assign gm).

(** The next statement of a function body: the game so far and whether the
    body is still running; nothing runs after a statement that raised. *)
Definition and_then (statement : Game → option Game) (run : Game * bool)
    : Game * bool :=
  if run.2
  then match statement run.1 with
       | Some gm => (gm, true)
       | None => (run.1, false)
       end
  else run.

(** [_update_local_game_from_post] on any dict: the globals when the
    function is left, and whether it returned rather than raised.
    [LAST_POSTED_STATE] is replaced first, by the whole dict; its record
    keeps the entries a [Payload] can hold, and nothing reads the others. *)
Definition _update_local_game_from_post_raw (data : Payload)
    (rejected : list Key) (gl : Globals) : Globals * bool :=
  let run := (GLOBAL_GAME gl, true) in
  let run := and_then (λ gm, Some (if_present (p_board data) set_grid gm)) run in
  let run := and_then (if_present_converted rejected key_agent1_trail
                         (p_agent1_trail data)
                         (λ t, set_agent1 (set_trail t))) run in
  let run := and_then (if_present_converted rejected key_agent2_trail
                         (p_agent2_trail data)
                         (λ t, set_agent2 (set_trail t))) run in
  let run := and_then (if_present_converted rejected key_agent1_length
                         (p_agent1_length data)
                         (λ n, set_agent1 (set_length n))) run in
  let run := and_then (if_present_converted rejected key_agent2_length
                         (p_agent2_length data)
                         (λ n, set_agent2 (set_length n))) run in
  let run := and_then (λ gm, Some (if_present (p_agent1_alive data)
                                     (λ b, set_agent1 (set_alive b)) gm))
               run in
  let run := and_then (λ gm, Some (if_present (p_agent2_alive data)
                                     (λ b, set_agent2 (set_alive b)) gm))
               run in
  let run := and_then (if_present_converted rejected key_agent1_boosts
                         (p_agent1_boosts data)
                         (λ n, set_agent1 (set_boosts n))) run in
  let run := and_then (if_present_converted rejected key_agent2_boosts
                         (p_agent2_boosts data)
                         (λ n, set_agent2 (set_boosts n))) run in
  let run := and_then (if_present_converted rejected key_turn_count
                         (p_turn_count data) set_turns) run in
  (mkGlobals run.1 data, run.2).

(** [(-cur_dx, -cur_dy)] *)
Definition neg_delta (v : Z * Z) : Z * Z := (- v.1, - v.2).

(** [agent1 if player_number == 1 else agent2], and the other one. *)
Definition my_agent_of (player_number : Z) (gm : Game) : Agent :=
  if decide (player_number = 1) then agent1 gm else agent2 gm.
Definition opponent_of (player_number : Z) (gm : Game) : Agent :=
  if decide (player_number = 1) then agent2 gm else agent1 gm.

(** [opponent.trail[-1] if opponent.alive else None] *)
Definition opp_head_of (opponent : Agent) : result (option Cell) :=
  if alive opponent
  then h ← opt_get (last (trail opponent)) IndexError; Ok (Some h)
  else Ok None.

(** [[d for d in Direction if d.value != (-cur_dx, -cur_dy)]], the same in
    both agents. *)
Definition non_reversing `{CaseClosedGame} (cur_dir : Direction)
    : list Direction :=
  filter (λ d, value d ≠ neg_delta (value cur_dir)) Direction_members.

(** ** agent.py: the phased agent *)

Module Agent.

(** The three values of [send_move.phase]. *)
Inductive Phase := floodfill | panic | post_corridor_fill.

#[global] Instance Phase_eq_dec : EqDecision Phase.
Proof. solve_decision. Defined.

(** The globals of [agent.py] and the two attributes of [send_move];
    [None] until the first query or match end sets them. *)
Record State := mkState {
  globals : Globals;
  send_move_attrs : option (Phase * Z)
}.

(** A candidate is the tuple [(space, direction, (nx, ny))]. *)
Definition Candidate : Type := Z * Direction * Cell.

Section WithGame.
Context `{CaseClosedGame}.

Definition is_suicidal (head target : Cell) (board : Board)
    (occupied_trails : gset Cell) : bool :=
  let cell_state :=
    match get_cell_state board target with
    | Some s => s
    | None => if decide (target ∈ occupied_trails) then AGENT else EMPTY
    end in
  if decide (cell_state ≠ EMPTY) then true
  else if decide (target ∈ occupied_trails) then true
  else false.

(** The two [for] loops of [bfs_next_move]: the first direction of [ds]
    whose wrapped target is not suicidal. *)
Fixpoint first_safe_direction (ds : list Direction) (head : Cell)
    (occupied : gset Cell) (board : Board) : result (option Direction) :=
  match ds with
  | [] => Ok None
  | d :: ds' =>
      n ← wrap_step (width board) (height board) head d;
      if negb (is_suicidal head n board occupied)
      then Ok (Some d)
      else first_safe_direction ds' head occupied board
  end.

Definition bfs_next_move (head : Cell) (occupied : gset Cell)
    (board : Board) (preferred_dx : Z) : result (option Direction) :=
  let w := width board in
  nx ← pymod (head.1 + preferred_dx) w;
  if negb (is_suicidal head (nx, head.2) board occupied)
  then Ok (Some (if decide (preferred_dx > 0) then RIGHT else LEFT))
  else
    vertical ← first_safe_direction [UP; DOWN] head occupied board;
    match vertical with
    | Some d => Ok (Some d)
    | None =>
        first_safe_direction [LEFT; RIGHT; UP; DOWN] head occupied board
    end.

(** [bfs_next_move] as [send_move] calls it: [board.width] and
    [board.height] are known not to be zero there, because candidate
    generation evaluated [% w] and [% h] before, so no [%] of the call can
    raise. *)
Definition bfs_next_move_on_board (head : Cell) (occupied : gset Cell)
    (board : Board) (preferred_dx : Z) : option Direction :=
  let w := width board in
  let h := height board in
  let safe d := negb (is_suicidal head (wrap_cell w h head d) board occupied) in
  if negb (is_suicidal head ((head.1 + preferred_dx) `mod` w, head.2)
             board occupied)
  then Some (if decide (preferred_dx > 0) then RIGHT else LEFT)
  else
    match find safe [UP; DOWN] with
    | Some d => Some d
    | None => find safe [LEFT; RIGHT; UP; DOWN]
    end.

(** [list.sort(reverse=True, key=lambda x: x[0])]: a stable sort by
    descending score; an element goes before the sorted elements whose
    score is not larger than its own. *)
Fixpoint insert_desc (c : Candidate) (l : list Candidate)
    : list Candidate :=
  match l with
  | [] => [c]
  | c' :: l' =>
      if decide (c.1.1 < c'.1.1) then c' :: insert_desc c l' else c :: l
  end.

Definition sort_desc (l : list Candidate) : list Candidate :=
  foldr insert_desc [] l.

(** The [for] loop of the selector, returning at the first candidate
    that is not suicidal. *)
Fixpoint first_non_suicidal (head : Cell) (board : Board)
    (occupied_trails : gset Cell) (l : list Candidate)
    : option Direction :=
  match l with
  | [] => None
  | c :: l' =>
      if negb (is_suicidal head c.2 board occupied_trails)
      then Some c.1.2
      else first_non_suicidal head board occupied_trails l'
  end.

(** The selector sorts its argument in place: the first component is the
    list the caller holds afterwards, the second the returned value. *)
Definition choose_non_suicidal_move (head : Cell) (board : Board)
    (occupied_trails : gset Cell) (candidate_moves : list Candidate)
    (cur_dir : Direction) : list Candidate * option Direction :=
  match candidate_moves with
  | [] => (candidate_moves, None)
  | _ :: _ =>
      let sorted := sort_desc candidate_moves in
      match first_non_suicidal head board occupied_trails sorted with
      | Some d => (sorted, Some d)
      | None => (sorted, (λ c : Candidate, c.1.2) <$> hd_error sorted)
      end
  end.

(** The loop that builds [move_options]. *)
Fixpoint move_options_loop (ds : list Direction) (head : Cell)
    (board : Board) (blocked : gset Cell) (acc : list Candidate)
    : result (list Candidate) :=
  match ds with
  | [] => Ok acc
  | d :: ds' =>
      n ← wrap_step (width board) (height board) head d;
      if decide (n = head)
      then move_options_loop ds' head board blocked acc
      else
        space ← flood_fill_space n board blocked;
        move_options_loop ds' head board blocked (acc ++ [(space, d, n)])
  end.

(** [abs(head[0] - opp_head[0]) if opp_head else float('inf')];
    [None] is the infinite separation. *)
Definition horiz_sep (head : Cell) (opp_head : option Cell) : option Z :=
  match opp_head with
  | Some oh => Some (Z.abs (head.1 - oh.1))
  | None => None
  end.

Definition PANIC_THRESHOLD : Z := 1.

Definition panic_trigger (phase : Phase) (sep : option Z) : Phase :=
  match sep with
  | Some s =>
      if decide (phase = floodfill ∧ s ≤ PANIC_THRESHOLD) then panic
      else phase
  | None => phase
  end.

Definition corridor_blocked (phase : Phase) (head : Cell)
    (opp_head : option Cell) (corridor_y exit_x : Z) : bool :=
  match opp_head with
  | Some oh =>
      if decide (phase = panic) then
        if decide (head.2 ≠ corridor_y ∧ oh.2 = corridor_y) then
          if decide ((head.1 < exit_x ∧ head.1 < oh.1 ∧ oh.1 ≤ exit_x)
                     ∨ (head.1 > exit_x ∧ exit_x ≤ oh.1 ∧ oh.1 < head.1))
          then true else false
        else false
      else false
  | None => false
  end.

Definition infiltration_check (phase : Phase) (head : Cell)
    (opp_head : option Cell) (corridor_y exit_x : Z) : Phase :=
  if corridor_blocked phase head opp_head corridor_y exit_x
  then post_corridor_fill else phase.

(** Steps 1 to 3 of the panic branch: the phase, the escape bias and the
    tentative direction after them. *)
Definition panic_tentative (escape_dx : Z) (head : Cell)
    (corridor_y exit_x : Z) : Phase * Z * option Direction :=
  if decide (head.2 ≠ corridor_y)
  then (panic, escape_dx,
        Some (if decide (head.2 < corridor_y) then DOWN else UP))
  else if decide (head.1 ≠ exit_x)
  then (panic, (if decide (head.1 < exit_x) then 1 else -1),
        Some (if decide (head.1 < exit_x) then RIGHT else LEFT))
  else (post_corridor_fill, escape_dx, None).

(** A direction proposed by a phase is taken when its target is not
    suicidal; otherwise, and when nothing is proposed, the generic
    selector decides. *)
Definition checked_or_choose (proposal : option Direction) (head : Cell)
    (board : Board) (occupied_trails : gset Cell)
    (move_options : list Candidate) (cur_dir : Direction)
    : list Candidate * option Direction :=
  match proposal with
  | Some d =>
      if negb (is_suicidal head
                 (wrap_cell (width board) (height board) head d)
                 board occupied_trails)
      then (move_options, Some d)
      else choose_non_suicidal_move head board occupied_trails
             move_options cur_dir
  | None =>
      choose_non_suicidal_move head board occupied_trails
        move_options cur_dir
  end.

(** The [if / elif / elif] on the phase. *)
Definition decide_by_phase (phase : Phase) (escape_dx : Z) (head : Cell)
    (corridor_y exit_x : Z) (board : Board) (occupied_trails : gset Cell)
    (move_options : list Candidate) (cur_dir : Direction)
    : Phase * Z * (list Candidate * option Direction) :=
  match phase with
  | floodfill =>
      (phase, escape_dx,
       choose_non_suicidal_move head board occupied_trails
         move_options cur_dir)
  | panic =>
      let '(phase', escape_dx', tentative) :=
        panic_tentative escape_dx head corridor_y exit_x in
      (phase', escape_dx',
       checked_or_choose tentative head board occupied_trails
         move_options cur_dir)
  | post_corridor_fill =>
      let next_move :=
        bfs_next_move_on_board head occupied_trails board
          (if decide (escape_dx = 0) then 1 else escape_dx) in
      (phase, escape_dx,
       checked_or_choose next_move head board occupied_trails
         move_options cur_dir)
  end.

(** Everything of [send_move] after the early return: the two phase
    transitions, the decision and the final guard. *)
Definition phased_decision (phase : Phase) (escape_dx : Z) (head : Cell)
    (opp_head : option Cell) (corridor_y exit_x : Z) (board : Board)
    (occupied_trails : gset Cell) (move_options : list Candidate)
    (cur_dir : Direction) : Phase * Z * result Direction :=
  let phase := panic_trigger phase (horiz_sep head opp_head) in
  let phase := infiltration_check phase head opp_head corridor_y exit_x in
  let '(phase, escape_dx, (move_options, chosen)) :=
    decide_by_phase phase escape_dx head corridor_y exit_x board
      occupied_trails move_options cur_dir in
  match chosen with
  | Some d => (phase, escape_dx, Ok d)
  | None =>
      (phase, escape_dx,
       c ← opt_get (hd_error move_options) IndexError; Ok c.1.2)
  end.

(** [{(x % w, corridor_y) for x in range(w)}] *)
Definition sneaky_corridor (w corridor_y : Z) : gset Cell :=
  list_to_set ((λ x, (x `mod` w, corridor_y)) <$> seqZ 0 w).

(** What a query reads before it touches the phase. *)
Record Scene := mkScene {
  sc_head : Cell;
  sc_opp_head : option Cell;
  sc_corridor_y : Z;
  sc_exit_x : Z;
  sc_occupied_trails : gset Cell;
  sc_move_options : list Candidate
}.

Definition read_scene (my_agent opponent : Agent) (board : Board)
    : result Scene :=
  head ← opt_get (last (trail my_agent)) IndexError;
  opp_head ← opp_head_of opponent;
  let w := width board in
  let h := height board in
  start ← opt_get (hd_error (trail my_agent)) IndexError;
  corridor_y ← pymod (start.2 + h `div` 2) h;
  let corridor := sneaky_corridor w corridor_y in
  let exit_x := start.1 in
  let occupied_trails : gset Cell :=
    list_to_set (trail my_agent) ∪ list_to_set (trail opponent) in
  move_options ← move_options_loop (non_reversing (direction my_agent))
                   head board (occupied_trails ∪ corridor) [];
  Ok (mkScene head opp_head corridor_y exit_x occupied_trails
        move_options).

(** [GET /send-move]: the state afterwards and the answer. *)
Definition send_move (player_number : Z) (st : State)
    : State * result Direction :=
  let '(phase, escape_dx) := default (floodfill, 0) (send_move_attrs st) in
  let gm := GLOBAL_GAME (globals st) in
  let my_agent := my_agent_of player_number gm in
  let opponent := opponent_of player_number gm in
  match read_scene my_agent opponent (board gm) with
  | Raise e => (mkState (globals st) (Some (phase, escape_dx)), Raise e)
  | OutOfFuel => (mkState (globals st) (Some (phase, escape_dx)), OutOfFuel)
  | Ok sc =>
      match sc_move_options sc with
      | [] =>
          (mkState (globals st) (Some (phase, escape_dx)),
           Ok (direction my_agent))
      | _ :: _ =>
          let '(phase', escape_dx', answer) :=
            phased_decision phase escape_dx (sc_head sc) (sc_opp_head sc)
              (sc_corridor_y sc) (sc_exit_x sc) (board gm)
              (sc_occupied_trails sc) (sc_move_options sc)
              (direction my_agent) in
          (mkState (globals st) (Some (phase', escape_dx')), answer)
      end
  end.

(** [POST /send-state]: the state afterwards and how the handler ends. *)
Definition receive_state (body : Body) (st : State) : State * Response :=
  match body with
  | NoJson => (st, Raised)
  | JsonNull => (st, Status 400)
  | JsonDict data rejected =>
      if dict_truthy data rejected
      then
        let '(gl, returned) :=
          _update_local_game_from_post_raw data rejected (globals st) in
        (mkState gl (send_move_attrs st),
         if returned then Status 200 else Raised)
      else (st, Status 400)
  end.

(** [POST /end]: the state afterwards and how the handler ends.  The two
    assignments to the attributes of [send_move] are reached only when
    neither [request.get_json()] nor the ingestion raised. *)
Definition end_game (body : Body) (st : State) : State * Response :=
  match body with
  | NoJson => (st, Raised)
  | JsonNull => (mkState (globals st) (Some (floodfill, 0)), Status 200)
  | JsonDict data rejected =>
      if dict_truthy data rejected
      then
        let '(gl, returned) :=
          _update_local_game_from_post_raw data rejected (globals st) in
        if returned
        then (mkState gl (Some (floodfill, 0)), Status 200)
        else (mkState gl (send_move_attrs st), Raised)
      else (mkState (globals st) (Some (floodfill, 0)), Status 200)
  end.

(** The phase and the escape bias a query would start from. *)
Definition phase_of (st : State) : Phase :=
  (default (floodfill, 0) (send_move_attrs st)).1.
Definition escape_dx_of (st : State) : Z :=
  (default (floodfill, 0) (send_move_attrs st)).2.

End WithGame.
End Agent.

(** ** sample_agent.py: the simple agent *)

Module SampleAgent.
Section WithGame.
Context `{CaseClosedGame}.

(** The loop that builds [safe_moves]. *)
Fixpoint safe_moves_loop (ds : list Direction) (head : Cell)
    (opp_head : option Cell) (my_agent opponent : Agent) (board : Board)
    (acc : list Direction) : result (list Direction) :=
  match ds with
  | [] => Ok acc
  | d :: ds' =>
      n ← wrap_step (width board) (height board) head d;
      if decide (n ∈ trail my_agent ∨ n ∈ trail opponent)
      then safe_moves_loop ds' head opp_head my_agent opponent board acc
      else
        match opp_head with
        | Some oh =>
            opp_next ← rmapM (wrap_step (width board) (height board) oh)
                         Direction_members;
            if decide (n ∈ opp_next)
            then safe_moves_loop ds' head opp_head my_agent opponent
                   board acc
            else safe_moves_loop ds' head opp_head my_agent opponent
                   board (acc ++ [d])
        | None =>
            safe_moves_loop ds' head opp_head my_agent opponent board
              (acc ++ [d])
        end
  end.

(** The loop that scores the safe moves, threading [max_space] and
    [chosen]. *)
Fixpoint best_move_loop (ds : list Direction) (head : Cell)
    (my_agent opponent : Agent) (board : Board) (max_space : Z)
    (chosen : Direction) : result (Z * Direction) :=
  match ds with
  | [] => Ok (max_space, chosen)
  | d :: ds' =>
      n ← wrap_step (width board) (height board) head d;
      let occupied : gset Cell :=
        list_to_set (trail my_agent) ∪ list_to_set (trail opponent) in
      space ← flood_fill_space n board occupied;
      if decide (space > max_space)
      then best_move_loop ds' head my_agent opponent board space d
      else best_move_loop ds' head my_agent opponent board max_space chosen
  end.

(** [GET /send-move]: the direction and whether [":BOOST"] is appended.
    [max_space] is a local that only the [else] branch binds. *)
Definition send_move (player_number : Z) (gl : Globals)
    : result (Direction * bool) :=
  let gm := GLOBAL_GAME gl in
  let my_agent := my_agent_of player_number gm in
  let opponent := opponent_of player_number gm in
  let boosts := boosts_remaining my_agent in
  head ← opt_get (last (trail my_agent)) IndexError;
  opp_head ← opp_head_of opponent;
  let directions := non_reversing (direction my_agent) in
  safe_moves ← safe_moves_loop directions head opp_head my_agent opponent
                 (board gm) [];
  '(max_space, chosen) ←
    match safe_moves with
    | [] => Ok (None, direction my_agent)
    | d0 :: _ =>
        '(m, c) ← best_move_loop safe_moves head my_agent opponent
                    (board gm) (-1) d0;
        Ok (Some m, c)
    end;
  use_boost ←
    (if decide (boosts > 0)
     then m ← opt_get max_space UnboundLocalError; Ok (bool_decide (m > 10))
     else Ok false);
  Ok (chosen, use_boost).

(** [POST /send-state]: the globals afterwards and how the handler ends. *)
Definition receive_state (body : Body) (gl : Globals) : Globals * Response :=
  match body with
  | NoJson => (gl, Raised)
  | JsonNull => (gl, Status 400)
  | JsonDict data rejected =>
      if dict_truthy data rejected
      then
        let '(gl', returned) :=
          _update_local_game_from_post_raw data rejected gl in
        (gl', if returned then Status 200 else Raised)
      else (gl, Status 400)
  end.

(** [POST /end]: the globals afterwards and how the handler ends. *)
Definition end_game (body : Body) (gl : Globals) : Globals * Response :=
  match body with
  | NoJson => (gl, Raised)
  | JsonNull => (gl, Status 200)
  | JsonDict data rejected =>
      if dict_truthy data rejected
      then
        let '(gl', returned) :=
          _update_local_game_from_post_raw data rejected gl in
        (gl', if returned then Status 200 else Raised)
      else (gl, Status 200)
  end.

End WithGame.
End SampleAgent.

(** Modelled from the spec: the [Direction] enum and the board's cell query of
    [case_closed_game], which is not part of the sources.  The four unit
    deltas are the ones the agents rely on ([DOWN] increases [y], [RIGHT]
    increases [x]); the query wraps the cell and reads [grid[y][x]], raising
    when the grid has no such entry. *)
Definition spec_value (d : Direction) : Z * Z :=
  match d with
  | UP => (0, -1)
  | DOWN => (0, 1)
  | LEFT => (-1, 0)
  | RIGHT => (1, 0)
  end.

(** Modelled from the spec: see [spec_value]. *)
Definition spec_get_cell_state (b : Board) (c : Cell) : option Z :=
  if decide (width b = 0 ∨ height b = 0) then None
  else
    row ← grid b !! Z.to_nat (c.2 `mod` height b);
    row !! Z.to_nat (c.1 `mod` width b).

(** Modelled from the spec: see [spec_value]. *)
#[global, refine] Instance spec_game : CaseClosedGame := {|
  Direction_members := [UP; DOWN; LEFT; RIGHT];
  value := spec_value;
  EMPTY := 0;
  AGENT := 1;
  get_cell_state := spec_get_cell_state
|}.
Proof.
  - by apply (bool_decide_unpack _).
  - intros d; destruct d; by apply (bool_decide_unpack _).
  - intros d1 d2; destruct d1, d2; simpl; congruence.
Defined.

(** Modelled from the spec: the same enum as [spec_game] listed in the
    opposite order, to compare traversal orders. *)
#[refine] Definition spec_game_reversed : CaseClosedGame := {|
  Direction_members := [RIGHT; LEFT; DOWN; UP];
  value := spec_value;
  EMPTY := 0;
  AGENT := 1;
  get_cell_state := spec_get_cell_state
|}.
Proof.
- by apply (bool_decide_unpack _).
- intros d; destruct d; by apply (bool_decide_unpack _).
- intros d1 d2; destruct d1, d2; simpl; congruence.
Defined.

(** * Vocabulary of the properties *)

(** Cells the flood fill can reach from [start]: the start itself when it is
    free, and every free wrapped neighbour of a reached cell. *)
Inductive reach `{CaseClosedGame} (w h : Z) (occ : gset Cell) (start : Cell)
    : Cell → Prop :=
  | reach_start : start ∉ occ → reach w h occ start start
  | reach_step c d :
      reach w h occ start c →
      wrap_cell w h c d ∉ occ →
      reach w h occ start (wrap_cell w h c d).

Section Vocabulary.
Context `{CaseClosedGame}.

(** Descending order of the space scores. *)
Definition desc (a b : Agent.Candidate) : Prop := b.1.1 ≤ a.1.1.

Definition suicidal_candidate (head : Cell) (board : Board)
    (occ : gset Cell) (c : Agent.Candidate) : Prop :=
  Agent.is_suicidal head c.2 board occ = true.

(** The free, unvisited neighbours of [c], in enumeration order. *)
Definition fresh_neighbours (w h : Z) (c : Cell) (visited occ : gset Cell)
    (ds : list Direction) : list Cell :=
  filter (λ n, (n ∉ visited) ∧ (n ∉ occ)) (wrap_cell w h c <$> ds).

(** What the loop maintains: visited cells are reachable, queued free
    cells are reachable, every free neighbour of a visited cell is visited
    or queued, and so is the start. *)
Record loop_inv (w h : Z) (occ : gset Cell) (start : Cell)
    (visited : gset Cell) (queue : list Cell) : Prop := {
  inv_visited : ∀ c, c ∈ visited → reach w h occ start c;
  inv_queue : ∀ c, c ∈ queue → c ∉ occ → reach w h occ start c;
  inv_closed : ∀ c d, c ∈ visited → wrap_cell w h c d ∉ occ →
                 wrap_cell w h c d ∈ visited ∨ wrap_cell w h c d ∈ queue;
  inv_start : start ∈ occ ∨ start ∈ visited ∨ start ∈ queue
}.

(** The cells a fill from [start] can ever hold. *)
Definition universe (w h : Z) (start : Cell) : gset Cell :=
  {[start]} ∪ list_to_set (board_cells w h).

End Vocabulary.


(** The inputs of a match other than its end. *)
Inductive Input :=
  | Query (player_number : Z)
  | Sync (body : Body).

Definition feed `{CaseClosedGame} (st : Agent.State) (i : Input)
    : Agent.State :=
  match i with
  | Query pn => (Agent.send_move pn st).1
  | Sync body => (Agent.receive_state body st).1
  end.

(** The phase a query ends in, given the phase it starts in and the scene:
    the panic trigger, the infiltration check and the arrival at the exit. *)
Definition phase_after `{CaseClosedGame} (phase : Agent.Phase)
    (sc : Agent.Scene) : Agent.Phase :=
  let head := Agent.sc_head sc in
  let p1 := Agent.panic_trigger phase
              (Agent.horiz_sep head (Agent.sc_opp_head sc)) in
  let p2 := Agent.infiltration_check p1 head (Agent.sc_opp_head sc)
              (Agent.sc_corridor_y sc) (Agent.sc_exit_x sc) in
  match p2 with
  | Agent.panic =>
      if decide (head.2 = Agent.sc_corridor_y sc ∧ head.1 = Agent.sc_exit_x sc)
      then Agent.post_corridor_fill else Agent.panic
  | _ => p2
  end.

(** Separation of two columns on the toroidal board, where coordinate
    arithmetic is modular: their distance on a ring of [w] columns. *)
Definition toroidal_sep (w a b : Z) : Z :=
  Z.min ((a - b) `mod` w) ((b - a) `mod` w).

(** [x] lies strictly between [a] and [b], whichever of the two is larger. *)
Definition strictly_between (a b x : Z) : Prop :=
  (a < x ∧ x < b) ∨ (b < x ∧ x < a).

(** Everything a process receives: the inputs of a match and its end. *)
Inductive Event :=
  | Incoming (i : Input)
  | EndMatch (body : Body).

Definition handle `{CaseClosedGame} (st : Agent.State) (ev : Event)
    : Agent.State :=
  match ev with
  | Incoming i => feed st i
  | EndMatch body => (Agent.end_game body st).1
  end.

(** Both trails a query indexes are non-empty. *)
Definition trails_ok (my opp : Agent) : Prop :=
  trail my ≠ [] ∧ (alive opp = true → trail opp ≠ []).

#[global] Instance trails_ok_dec my opp : Decision (trails_ok my opp).
Proof. unfold trails_ok. destruct (alive opp); apply _. Defined.



(** The statement of the ingestion, counted from the board's as 0, that
    converts the value under a key. *)
Definition statement_of (k : Key) : nat :=
  match k with
  | key_agent1_trail => 1
  | key_agent2_trail => 2
  | key_agent1_length => 3
  | key_agent2_length => 4
  | key_agent1_boosts => 7
  | key_agent2_boosts => 8
  | key_turn_count => 9
  end.

(** The keys of [Key] in the order in which the ingestion converts them. *)
Definition conversion_order : list Key :=
  [key_agent1_trail; key_agent2_trail; key_agent1_length; key_agent2_length;
   key_agent1_boosts; key_agent2_boosts; key_turn_count].

(** The first rejected key the ingestion comes to, if any. *)
Definition first_rejected (rejected : list Key) : option Key :=
  find (λ k, bool_decide (k ∈ rejected)) conversion_order.

(** An entry handled by statement [n], kept when that statement comes
    before the one that converts the value under [k]. *)
Definition kept_before {A} (k : Key) (n : nat) (field : option A)
    : option A :=
  if decide (n < statement_of k)%nat then field else None.

(** The entries of a payload that the ingestion handles before it converts
    the value under [k]. *)
Definition entries_before (k : Key) (data : Payload) : Payload :=
  mkPayload
    (kept_before k 0 (p_board data))
    (kept_before k 1 (p_agent1_trail data))
    (kept_before k 2 (p_agent2_trail data))
    (kept_before k 3 (p_agent1_length data))
    (kept_before k 4 (p_agent2_length data))
    (kept_before k 5 (p_agent1_alive data))
    (kept_before k 6 (p_agent2_alive data))
    (kept_before k 7 (p_agent1_boosts data))
    (kept_before k 8 (p_agent2_boosts data))
    (kept_before k 9 (p_turn_count data))
    (p_other_keys data).

(** A body that was read and ingested without an exception: [null], or a
    dict none of whose values is rejected. *)
Definition accepted (body : Body) : Prop :=
  match body with
  | NoJson => False
  | JsonNull => True
  | JsonDict _ rejected => rejected = []
  end.

(** ** Concrete games used as inputs *)

(** The grid a state sync carries for a [w] x [h] board on which exactly the
    cells of [occupied] are marked: [h] rows of [w] markers, 1 for a trail
    cell and 0 for an empty one. *)
Definition grid_of (w h : Z) (occupied : list Cell) : list (list Z) :=
  (λ y, (λ x, if decide ((x, y) ∈ occupied) then 1 else 0) <$> seqZ 0 w)
    <$> seqZ 0 h.

Definition synced_board (w h : Z) (a1 a2 : Agent) : Board :=
  mkBoard w h (grid_of w h (trail a1 ++ trail a2)).

(** The trapped agent of the failing query: the head [(1, 1)] is enclosed by
    its own trail on a 20 x 18 board. *)
Definition trapped_agent : Agent :=
  mkAgent [(1, 0); (2, 0); (2, 1); (2, 2); (1, 2); (0, 2); (0, 1); (1, 1)]
    RIGHT true 8 3.

Definition far_agent : Agent := mkAgent [(10, 10)] LEFT true 1 3.

Definition trapped_globals : Globals :=
  mkGlobals
    (mkGame (synced_board 20 18 trapped_agent far_agent) trapped_agent
       far_agent 7)
    empty_payload.

Definition corner_agent : Agent :=
  mkAgent [(4, 5); (5, 5)] RIGHT true 2 3.

Definition near_agent : Agent :=
  mkAgent [(7, 4); (7, 5)] LEFT true 2 3.

Definition open_board : Board := synced_board 8 8 corner_agent near_agent.

Definition corner_scene : Agent.Scene :=
  Agent.mkScene (5, 5) (Some (7, 5)) 1 4
    (list_to_set (trail corner_agent) ∪ list_to_set (trail near_agent))
    [(52, UP, (5, 4)); (52, DOWN, (5, 6)); (52, RIGHT, (6, 5))].

Definition edge_agent : Agent := mkAgent [(1, 5); (0, 5)] LEFT true 2 3.

Definition state_of (my opp : Agent) (attrs : option (Agent.Phase * Z))
    : Agent.State :=
  Agent.mkState
    (mkGlobals (mkGame (synced_board 8 6 my opp) my opp 1) empty_payload)
    attrs.

(** The agent at the left edge, the opponent at the right edge: the heads
    are in neighbouring columns of the ring, 7 columns apart in plain
    numbers. *)
Definition far_edge_opponent : Agent :=
  mkAgent [(6, 3); (7, 3)] RIGHT true 2 3.

Definition edge_state : Agent.State :=
  state_of edge_agent far_edge_opponent None.

(** The same match with the opponent's head in the column next to the
    agent's in plain numbers. *)
Definition close_opponent : Agent := mkAgent [(2, 3); (1, 3)] LEFT true 2 3.

Definition close_state : Agent.State :=
  state_of edge_agent close_opponent None.

Definition close_scene : Agent.Scene :=
  Agent.mkScene (0, 5) (Some (1, 3)) 2 1
    (list_to_set (trail edge_agent) ∪ list_to_set (trail close_opponent))
    [(36, UP, (0, 4)); (36, DOWN, (0, 0)); (36, LEFT, (7, 5))].

(** A match in panic: the agent started at [(5, 0)], so the safe row is 3
    and the exit column 5; its head is at [(2, 0)] and the opponent's head
    sits on the safe row exactly on the exit column. *)
Definition escaping_agent : Agent :=
  mkAgent [(5, 0); (4, 0); (3, 0); (2, 0)] LEFT true 4 3.

Definition exit_opponent : Agent := mkAgent [(5, 4); (5, 3)] UP true 2 3.

Definition exit_blocked_state : Agent.State :=
  state_of escaping_agent exit_opponent (Some (Agent.panic, 0)).

Definition exit_blocked_scene : Agent.Scene :=
  Agent.mkScene (2, 0) (Some (5, 3)) 3 5
    (list_to_set (trail escaping_agent) ∪ list_to_set (trail exit_opponent))
    [(35, UP, (2, 5)); (35, DOWN, (2, 1)); (35, LEFT, (1, 0))].

Definition trapped_state : Agent.State := Agent.mkState trapped_globals None.

Definition trapped_scene : Agent.Scene :=
  Agent.mkScene (1, 1) (Some (10, 10)) 9 1
    (list_to_set (trail trapped_agent) ∪ list_to_set (trail far_agent))
    [(0, UP, (1, 0)); (0, DOWN, (1, 2)); (0, RIGHT, (2, 1))].

Definition edge_scene : Agent.Scene :=
  Agent.mkScene (0, 5) (Some (7, 3)) 2 1
    (list_to_set (trail edge_agent) ∪ list_to_set (trail far_edge_opponent))
    [(36, UP, (0, 4)); (36, DOWN, (0, 0)); (36, LEFT, (7, 5))].

(** An agent in panic that has reached the safe row 3, three columns short of
    the exit column 5, with the opponent far from the row. *)
Definition row_agent : Agent :=
  mkAgent [(5, 0); (4, 0); (3, 0); (2, 0); (2, 1); (2, 2); (2, 3)]
    DOWN true 7 3.

Definition corner_opponent : Agent := mkAgent [(7, 4); (7, 5)] DOWN true 2 3.

Definition row_state : Agent.State :=
  state_of row_agent corner_opponent (Some (Agent.panic, 0)).

Definition row_scene : Agent.Scene :=
  Agent.mkScene (2, 3) (Some (7, 5)) 3 5
    (list_to_set (trail row_agent) ∪ list_to_set (trail corner_opponent))
    [(32, DOWN, (2, 4)); (0, LEFT, (1, 3)); (0, RIGHT, (3, 3))].

Definition corner_globals : Globals :=
  mkGlobals (mkGame open_board corner_agent near_agent 1) empty_payload.

(** A board of one cell: every step wraps onto the head, so the query has
    no candidate. *)
Definition lone_agent : Agent := mkAgent [(0, 0)] RIGHT true 1 3.

Definition gone_agent : Agent := mkAgent [] LEFT false 0 3.

Definition one_cell_state : Agent.State :=
  Agent.mkState
    (mkGlobals (mkGame (synced_board 1 1 lone_agent gone_agent) lone_agent
                  gone_agent 1)
       empty_payload)
    (Some (Agent.panic, 1)).

Definition one_cell_scene : Agent.Scene :=
  Agent.mkScene (0, 0) None 0 0
    (list_to_set (trail lone_agent) ∪ list_to_set (trail gone_agent)) [].



(** * Properties *)

Example flood_fill_open_board :
  flood_fill_space (6, 5) (mkBoard 10 10 []) {[ (5, 5) ]} = Ok 99.
Proof. vm_compute. reflexivity. Qed.

(** ** The suicide checker *)

(** C2: a target that is a member of the explicit occupied set is suicidal,
    whatever head, board and cell query are in force: the theorem holds for
    every instance of the game library, hence for every answer (or failure)
    of [get_cell_state]. *)
Theorem is_suicidal_occupied `{CaseClosedGame} (head target : Cell)
    (board : Board) (occupied_trails : gset Cell) :
  target ∈ occupied_trails →
  Agent.is_suicidal head target board occupied_trails = true.
Proof.
  intros Hin. unfold Agent.is_suicidal.
  destruct (get_cell_state board target) as [s|];
    repeat case_decide; done.
Qed.

(** The board reports the cell [(1, 1)] as empty, the trail set holds it. *)
Lemma is_suicidal_occupied_witness :
  spec_get_cell_state (mkBoard 3 3 [[0; 0; 0]; [0; 0; 0]; [0; 0; 0]]) (1, 1)
    = Some 0
  ∧ Agent.is_suicidal (0, 1) (1, 1)
      (mkBoard 3 3 [[0; 0; 0]; [0; 0; 0]; [0; 0; 0]]) {[ (1, 1) ]} = true.
Proof.
  split; [reflexivity |].
  apply (is_suicidal_occupied (0, 1) (1, 1)). set_solver.
Defined.

(** ** State ingestion *)

Lemma if_present_frame {A B} (proj : Game → B) (field : option A)
    (assign : A → Game → Game) (gm : Game) :
  (∀ v g, proj (assign v g) = proj g) →
  proj (if_present field assign gm) = proj gm.
Proof. intros Hp. destruct field; simpl; auto. Qed.

Lemma if_present_write {A} (proj : Game → A) (field : option A)
    (assign : A → Game → Game) (gm : Game) :
  (∀ v g, proj (assign v g) = v) →
  proj (if_present field assign gm) = default (proj gm) field.
Proof. intros Hp. destruct field; simpl; auto. Qed.

(** Reads the projection [proj] through the chain of conditional writes. *)
Ltac through_update proj :=
  unfold _update_local_game_from_post; cbv zeta;
  change (GLOBAL_GAME (mkGlobals ?g _)) with g;
  repeat first
    [ rewrite (if_present_frame proj) by reflexivity
    | rewrite (if_present_write proj) by reflexivity ];
  reflexivity.

(** C9: after a state sync every internal field is the payload's value when
    the payload has the key and its prior value when the key is absent
    ([default old None = old]); the board's dimensions and the headings are
    never written. *)
Theorem update_keeps_absent_fields (data : Payload) (gl : Globals) :
  let old := GLOBAL_GAME gl in
  let new := GLOBAL_GAME (_update_local_game_from_post data gl) in
  grid (board new) = default (grid (board old)) (p_board data)
  ∧ trail (agent1 new) = default (trail (agent1 old)) (p_agent1_trail data)
  ∧ trail (agent2 new) = default (trail (agent2 old)) (p_agent2_trail data)
  ∧ agent_length (agent1 new)
    = default (agent_length (agent1 old)) (p_agent1_length data)
  ∧ agent_length (agent2 new)
    = default (agent_length (agent2 old)) (p_agent2_length data)
  ∧ alive (agent1 new) = default (alive (agent1 old)) (p_agent1_alive data)
  ∧ alive (agent2 new) = default (alive (agent2 old)) (p_agent2_alive data)
  ∧ boosts_remaining (agent1 new)
    = default (boosts_remaining (agent1 old)) (p_agent1_boosts data)
  ∧ boosts_remaining (agent2 new)
    = default (boosts_remaining (agent2 old)) (p_agent2_boosts data)
  ∧ turns new = default (turns old) (p_turn_count data)
  ∧ width (board new) = width (board old)
  ∧ height (board new) = height (board old)
  ∧ direction (agent1 new) = direction (agent1 old)
  ∧ direction (agent2 new) = direction (agent2 old).
Proof.
  cbv zeta. repeat split.
  - through_update (λ g, grid (board g)).
  - through_update (λ g, trail (agent1 g)).
  - through_update (λ g, trail (agent2 g)).
  - through_update (λ g, agent_length (agent1 g)).
  - through_update (λ g, agent_length (agent2 g)).
  - through_update (λ g, alive (agent1 g)).
  - through_update (λ g, alive (agent2 g)).
  - through_update (λ g, boosts_remaining (agent1 g)).
  - through_update (λ g, boosts_remaining (agent2 g)).
  - through_update (λ g, turns g).
  - through_update (λ g, width (board g)).
  - through_update (λ g, height (board g)).
  - through_update (λ g, direction (agent1 g)).
  - through_update (λ g, direction (agent2 g)).
Qed.

(** ** The generic selector *)

Section Selector.
Context `{CaseClosedGame}.
Import Agent.

Lemma insert_desc_perm c l : insert_desc c l ≡ₚ c :: l.
Proof.
  induction l as [|c' l IH]; simpl; [done|].
  case_decide; [|done]. rewrite IH. apply Permutation_swap.
Qed.

Lemma sort_desc_perm l : sort_desc l ≡ₚ l.
Proof.
  induction l as [|c l IH]; simpl; [done|].
  by rewrite insert_desc_perm, IH.
Qed.

Lemma insert_desc_sorted c l :
  StronglySorted desc l → StronglySorted desc (insert_desc c l).
Proof.
  induction 1 as [|c' l Hs IH Hall]; simpl.
  - repeat constructor.
  - case_decide as Hlt.
    + constructor; [done|].
      rewrite insert_desc_perm. constructor; [unfold desc; lia | done].
    + constructor; [by constructor|].
      constructor; [unfold desc; lia|].
      eapply Forall_impl; [exact Hall|]. unfold desc. intros; lia.
Qed.

Lemma sort_desc_sorted l : StronglySorted desc (sort_desc l).
Proof.
  induction l; simpl; [constructor | by apply insert_desc_sorted].
Qed.

(** The sort is stable: candidates with the same score keep their order,
    which fixes the result among all sorted permutations. *)
Lemma insert_desc_stable k c l :
  filter (λ x : Candidate, x.1.1 = k) (insert_desc c l)
  = filter (λ x : Candidate, x.1.1 = k) (c :: l).
Proof.
  induction l as [|c' l IH]; simpl; [done|].
  case_decide as Hlt; [|done].
  rewrite !filter_cons in *.
  repeat case_decide; simplify_eq; try lia; by rewrite ?IH.
Qed.

Lemma sort_desc_stable k l :
  filter (λ x : Candidate, x.1.1 = k) (sort_desc l)
  = filter (λ x : Candidate, x.1.1 = k) l.
Proof.
  induction l as [|c l IH]; simpl; [done|].
  rewrite insert_desc_stable, !filter_cons. by rewrite IH.
Qed.

Lemma sorted_head_is_best c l :
  StronglySorted desc (c :: l) → ∀ c', c' ∈ c :: l → c'.1.1 ≤ c.1.1.
Proof.
  intros Hs c' Hin. apply StronglySorted_inv in Hs as [_ Hall].
  apply elem_of_cons in Hin as [->|Hin]; [lia|].
  rewrite Forall_forall in Hall. by apply Hall.
Qed.

Lemma first_non_suicidal_Some head board occ l d :
  first_non_suicidal head board occ l = Some d →
  ∃ l1 c l2, l = l1 ++ c :: l2
    ∧ Forall (suicidal_candidate head board occ) l1
    ∧ is_suicidal head c.2 board occ = false
    ∧ d = c.1.2.
Proof.
  induction l as [|c l IH]; simpl; [done|].
  destruct (is_suicidal head c.2 board occ) eqn:Hc; simpl.
  - intros (l1 & c0 & l2 & -> & Hl1 & Hc0 & ->)%IH.
    exists (c :: l1), c0, l2. repeat split; try done. by constructor.
  - intros [= <-]. exists [], c, l. by repeat split.
Qed.

Lemma first_non_suicidal_None head board occ l :
  first_non_suicidal head board occ l = None →
  Forall (suicidal_candidate head board occ) l.
Proof.
  induction l as [|c l IH]; simpl; [constructor|].
  destruct (is_suicidal head c.2 board occ) eqn:Hc; simpl; [|done].
  intros Hn. constructor; [done | by apply IH].
Qed.

(** C4: on a non-empty candidate list the selector leaves the list sorted
    by descending score (a stable permutation of its input) and returns
    the direction of the first candidate of that order whose target is
    not suicidal; when every target is suicidal it returns the direction
    of the head of the sorted list, a candidate of largest score. *)
Theorem choose_non_suicidal_move_correct (head : Cell) (board : Board)
    (occ : gset Cell) (cands : list Candidate) (cur_dir : Direction) :
  cands ≠ [] →
  let sorted := sort_desc cands in
  let r := choose_non_suicidal_move head board occ cands cur_dir in
  r.1 = sorted
  ∧ sorted ≡ₚ cands
  ∧ StronglySorted desc sorted
  ∧ ((∃ l1 c l2, sorted = l1 ++ c :: l2
        ∧ Forall (suicidal_candidate head board occ) l1
        ∧ is_suicidal head c.2 board occ = false
        ∧ r.2 = Some c.1.2)
     ∨ (Forall (suicidal_candidate head board occ) cands
        ∧ ∃ c, hd_error sorted = Some c
            ∧ (∀ c', c' ∈ cands → c'.1.1 ≤ c.1.1)
            ∧ r.2 = Some c.1.2)).
Proof.
  intros Hne sorted r.
  assert (Hperm : sorted ≡ₚ cands) by apply sort_desc_perm.
  assert (Hsorted : StronglySorted desc sorted) by apply sort_desc_sorted.
  subst r. unfold choose_non_suicidal_move.
  destruct cands as [|c0 cands']; [done|]. fold sorted.
  destruct (first_non_suicidal head board occ sorted) as [d|] eqn:Hfirst;
    simpl; (split; [done|]); (split; [done|]); (split; [done|]).
  - left. apply first_non_suicidal_Some in Hfirst
      as (l1 & c & l2 & Heq & Hl1 & Hc & ->).
    by exists l1, c, l2.
  - right. apply first_non_suicidal_None in Hfirst. split.
    + by rewrite <- Hperm.
    + destruct sorted as [|c s'] eqn:Hs.
      { by apply Permutation_nil_cons in Hperm. }
      exists c. split; [done|]. split; [|done].
      intros c' Hin. apply (sorted_head_is_best c s' Hsorted).
      by rewrite Hperm.
Qed.

(** Among the candidates that are not suicidal the selected one has the
    largest score. *)
Lemma sorted_first_safe_is_best head board occ l1 c l2 :
  StronglySorted desc (l1 ++ c :: l2) →
  Forall (suicidal_candidate head board occ) l1 →
  ∀ c', c' ∈ l1 ++ c :: l2 →
    is_suicidal head c'.2 board occ = false → c'.1.1 ≤ c.1.1.
Proof.
  intros Hs Hl1 c' Hin Hsafe.
  apply elem_of_app in Hin as [Hin|Hin].
  - rewrite Forall_forall in Hl1. specialize (Hl1 _ Hin).
    unfold suicidal_candidate in Hl1. congruence.
  - apply StronglySorted_app_1_r in Hs.
    by apply (sorted_head_is_best c l2).
Qed.

End Selector.

(** Two suicidal candidates and a safe one of smaller score: the safe one is
    selected. *)
Lemma choose_non_suicidal_move_correct_witness :
  let cands : list Agent.Candidate :=
    [(5, UP, (1, 0)); (9, DOWN, (1, 2)); (3, RIGHT, (2, 1))] in
  let r := Agent.choose_non_suicidal_move (1, 1)
             (mkBoard 3 3 [[0; 1; 0]; [0; 1; 0]; [0; 1; 0]])
             {[ (1, 0); (1, 1); (1, 2) ]} cands RIGHT in
  r.2 = Some RIGHT
  ∧ r.1 = [(9, DOWN, (1, 2)); (5, UP, (1, 0)); (3, RIGHT, (2, 1))]
  ∧ r.1 = Agent.sort_desc cands.
Proof.
  cbv zeta. split; [vm_compute; reflexivity|]. split; [vm_compute; reflexivity|].
  apply (choose_non_suicidal_move_correct (1, 1)
           (mkBoard 3 3 [[0; 1; 0]; [0; 1; 0]; [0; 1; 0]])
           {[ (1, 0); (1, 1); (1, 2) ]}
           [(5, UP, (1, 0)); (9, DOWN, (1, 2)); (3, RIGHT, (2, 1))] RIGHT).
  discriminate.
Defined.

(** ** Candidate generation *)

Section Candidates.
Context `{CaseClosedGame}.

Lemma wrap_step_Ok w h c d n :
  wrap_step w h c d = Ok n ↔
  w ≠ 0 ∧ h ≠ 0 ∧ n = wrap_cell w h c d.
Proof.
  unfold wrap_step, wrap_cell, pymod.
  repeat case_decide; simpl; split;
    try (intros [= <-]); try (intros (? & ? & ->)); try done.
Qed.

Lemma non_reversing_spec cur d :
  d ∈ non_reversing cur ↔ value d ≠ neg_delta (value cur).
Proof.
  unfold non_reversing. rewrite list_elem_of_filter.
  split; [by intros [? _] | intros; split; [done | apply members_all]].
Qed.

Lemma rmapM_Ok_elem {A B} (f : A → result B) l bs a b :
  rmapM f l = Ok bs → a ∈ l → f a = Ok b → b ∈ bs.
Proof.
  revert bs. induction l as [|a' l IH]; intros bs; simpl.
  - intros _ Hin. by apply elem_of_nil in Hin.
  - destruct (f a') as [b'| |] eqn:Hfa; simpl; try done.
    destruct (rmapM f l) as [bs'| |]; simpl; try done.
    intros [= <-] Hin Hb. apply elem_of_cons in Hin as [->|Hin].
    + rewrite Hfa in Hb. injection Hb as ->. apply list_elem_of_here.
    + apply list_elem_of_further. by eapply IH.
Qed.

(** Whatever holds of the accumulator and of every candidate the loop can
    append holds of the list it builds. *)
Lemma move_options_loop_Forall (P : Agent.Candidate → Prop) ds head board
    blocked acc res :
  Agent.move_options_loop ds head board blocked acc = Ok res →
  Forall P acc →
  (∀ d n space, d ∈ ds →
     wrap_step (width board) (height board) head d = Ok n →
     n ≠ head → P (space, d, n)) →
  Forall P res.
Proof.
  revert acc. induction ds as [|d ds IH]; intros acc; simpl.
  - by intros [= <-].
  - destruct (wrap_step _ _ head d) as [n| |] eqn:Hn; simpl; try done.
    case_decide as Hhead.
    + intros Hres Hacc HP. eapply IH; [done..|].
      intros d' n' sp Hin. apply HP. by apply list_elem_of_further.
    + destruct (flood_fill_space n board blocked) as [sp| |]; simpl;
        try done.
      intros Hres Hacc HP. eapply IH; [done| |].
      * apply Forall_app. split; [done|]. constructor; [|constructor].
        apply HP; [apply list_elem_of_here | done..].
      * intros d' n' sp' Hin. apply HP. by apply list_elem_of_further.
Qed.

Lemma safe_moves_loop_Forall (P : Direction → Prop) ds head opp_head
    my opp board acc res :
  SampleAgent.safe_moves_loop ds head opp_head my opp board acc = Ok res →
  Forall P acc →
  (∀ d n, d ∈ ds →
     wrap_step (width board) (height board) head d = Ok n →
     n ∉ trail my → n ∉ trail opp →
     (∀ oh dd, opp_head = Some oh →
        wrap_step (width board) (height board) oh dd ≠ Ok n) →
     P d) →
  Forall P res.
Proof.
  revert acc. induction ds as [|d ds IH]; intros acc; simpl.
  - by intros [= <-].
  - destruct (wrap_step _ _ head d) as [n| |] eqn:Hn; simpl; try done.
    case_decide as Htrail.
    { intros Hres Hacc HP. eapply IH; [done..|].
      intros d' n' Hin. apply HP. by apply list_elem_of_further. }
    assert (Hstep : ∀ acc',
      SampleAgent.safe_moves_loop ds head opp_head my opp board acc'
        = Ok res →
      Forall P acc' →
      (∀ d0 n0, d0 ∈ d :: ds →
         wrap_step (width board) (height board) head d0 = Ok n0 →
         n0 ∉ trail my → n0 ∉ trail opp →
         (∀ oh dd, opp_head = Some oh →
            wrap_step (width board) (height board) oh dd ≠ Ok n0) →
         P d0) →
      Forall P res).
    { intros acc' Hres Hacc HP. eapply IH; [done..|].
      intros d' n' Hin. apply HP. by apply list_elem_of_further. }
    destruct opp_head as [oh|].
    + destruct (rmapM _ Direction_members) as [opp_next| |] eqn:Hnext;
        simpl; try done.
      case_decide as Hreach; [by apply Hstep|].
      intros Hres Hacc HP. eapply Hstep; [done| |done].
      apply Forall_app. split; [done|]. constructor; [|constructor].
      apply (HP d n); [apply list_elem_of_here|done|tauto|tauto|].
      intros oh' dd [= <-] Hdd. apply Hreach.
      eapply rmapM_Ok_elem; [done | apply members_all | done].
    + intros Hres Hacc HP. eapply Hstep; [done| |done].
      apply Forall_app. split; [done|]. constructor; [|constructor].
      apply (HP d n); [apply list_elem_of_here|done|tauto|tauto|done].
Qed.

(** C8: neither agent's generator offers the reverse of the current
    heading or a target equal to the head.  For [agent.py] this is every
    entry of [move_options] (whose third component is the wrapped target
    of its direction); for [sample_agent.py] every entry of
    [safe_moves]. *)
Theorem candidates_never_reverse_nor_stay (my opp : Agent) (board : Board) :
  (∀ sc, Agent.read_scene my opp board = Ok sc →
     Forall (λ c : Agent.Candidate,
               value c.1.2 ≠ neg_delta (value (direction my))
               ∧ c.2 ≠ Agent.sc_head sc
               ∧ wrap_step (width board) (height board)
                   (Agent.sc_head sc) c.1.2 = Ok c.2)
            (Agent.sc_move_options sc))
  ∧ (∀ head opp_head safe,
       last (trail my) = Some head →
       SampleAgent.safe_moves_loop (non_reversing (direction my)) head
         opp_head my opp board [] = Ok safe →
       Forall (λ d, value d ≠ neg_delta (value (direction my))
                    ∧ wrap_step (width board) (height board) head d
                      ≠ Ok head)
              safe).
Proof.
  split.
  - intros sc. unfold Agent.read_scene.
    destruct (last (trail my)) as [head|]; simpl; [|done].
    destruct (opp_head_of opp) as [oh| |]; simpl; try done.
    destruct (hd_error (trail my)) as [start|]; simpl; [|done].
    destruct (pymod _ (height board)) as [cy| |]; simpl; try done.
    destruct (Agent.move_options_loop _ _ _ _ _) as [mo| |] eqn:Hmo;
      simpl; try done.
    intros [= <-]; simpl.
    eapply move_options_loop_Forall; [exact Hmo | constructor |].
    intros d n sp Hd Hn Hne; simpl.
    by apply non_reversing_spec in Hd.
  - intros head opp_head safe Hlast Hsafe.
    eapply safe_moves_loop_Forall; [exact Hsafe | constructor |].
    intros d n Hd Hn Hmy _ _. split; [by apply non_reversing_spec in Hd|].
    rewrite Hn. intros [= ->]. apply Hmy.
    apply last_Some in Hlast as [l' ->]. set_solver.
Qed.

(** C10: in the simple agent a direction whose wrapped target lies on
    either trail, or equals one of the wrapped cells next to the head of a
    living opponent, is not in the safe-move list. *)
Theorem safe_moves_exclude_trails_and_opponent_reach (my opp : Agent)
    (board : Board) (head : Cell) (opp_head : option Cell)
    (safe : list Direction) (d : Direction) (n : Cell) :
  SampleAgent.safe_moves_loop (non_reversing (direction my)) head opp_head
    my opp board [] = Ok safe →
  wrap_step (width board) (height board) head d = Ok n →
  ((n ∈ trail my) ∨ (n ∈ trail opp)
   ∨ (∃ oh dd, opp_head = Some oh
        ∧ wrap_step (width board) (height board) oh dd = Ok n)) →
  d ∉ safe.
Proof.
  intros Hsafe Hn Hbad Hin.
  assert (Hall : Forall (λ d', ∀ n',
    wrap_step (width board) (height board) head d' = Ok n' →
    (n' ∉ trail my) ∧ (n' ∉ trail opp)
    ∧ (∀ oh dd, opp_head = Some oh →
         wrap_step (width board) (height board) oh dd ≠ Ok n')) safe).
  { eapply safe_moves_loop_Forall; [exact Hsafe | constructor |].
    intros d' n' _ Hn' Hmy Hopp Hreach n'' Hn''.
    rewrite Hn' in Hn''. injection Hn'' as <-. done. }
  rewrite Forall_forall in Hall.
  destruct (Hall d Hin n Hn) as (Hmy & Hopp & Hreach).
  destruct Hbad as [?|[?|(oh & dd & Hoh & Hdd)]]; [done..|].
  by eapply Hreach.
Qed.

End Candidates.

Lemma corner_scene_read :
  Agent.read_scene corner_agent near_agent open_board = Ok corner_scene.
Proof. vm_compute. reflexivity. Qed.

Lemma corner_safe_moves :
  SampleAgent.safe_moves_loop (non_reversing RIGHT) (5, 5) (Some (7, 5))
    corner_agent near_agent open_board [] = Ok [UP; DOWN].
Proof. vm_compute. reflexivity. Qed.

(** On the open board the phased agent heading right at [(5, 5)] gets three
    candidates and the simple one two safe moves, the cell [(6, 5)] being
    next to the opponent's head. *)
Lemma candidates_never_reverse_nor_stay_witness :
  Forall (λ c : Agent.Candidate,
            value c.1.2 ≠ neg_delta (value RIGHT)
            ∧ c.2 ≠ (5, 5)
            ∧ wrap_step 8 8 (5, 5) c.1.2 = Ok c.2)
         [(52, UP, (5, 4)); (52, DOWN, (5, 6)); (52, RIGHT, (6, 5))]
  ∧ Forall (λ d, value d ≠ neg_delta (value RIGHT)
                 ∧ wrap_step 8 8 (5, 5) d ≠ Ok (5, 5))
           [UP; DOWN].
Proof.
  pose proof (candidates_never_reverse_nor_stay corner_agent near_agent
                open_board) as [Hphased Hsimple].
  split.
  - apply (Hphased corner_scene). exact corner_scene_read.
  - apply (Hsimple (5, 5) (Some (7, 5))); [reflexivity|].
    exact corner_safe_moves.
Defined.

(** Moving right from [(5, 5)] lands next to the opponent's head at
    [(7, 5)], so RIGHT is not a safe move. *)
Lemma safe_moves_exclude_trails_and_opponent_reach_witness :
  wrap_step 8 8 (5, 5) RIGHT = Ok (6, 5)
  ∧ wrap_step 8 8 (7, 5) LEFT = Ok (6, 5)
  ∧ RIGHT ∉ [UP; DOWN].
Proof.
  split; [reflexivity|]. split; [reflexivity|].
  apply (safe_moves_exclude_trails_and_opponent_reach corner_agent near_agent
           open_board (5, 5) (Some (7, 5)) [UP; DOWN] RIGHT (6, 5)).
  - exact corner_safe_moves.
  - reflexivity.
  - right; right. by exists (7, 5), LEFT.
Defined.

(** ** The reachable-area estimator *)

Section FloodFillProofs.
Context `{CaseClosedGame}.

Lemma wrap_step_nonzero w h c d :
  w ≠ 0 → h ≠ 0 → wrap_step w h c d = Ok (wrap_cell w h c d).
Proof. intros. by apply wrap_step_Ok. Qed.

Lemma wrap_step_zero w h c d :
  w = 0 ∨ h = 0 → wrap_step w h c d = Raise ZeroDivisionError.
Proof.
  unfold wrap_step, pymod. intros [-> | ->]; repeat case_decide; done.
Qed.

Lemma enqueue_neighbours_Ok w h c visited occ ds queue :
  w ≠ 0 → h ≠ 0 →
  enqueue_neighbours w h c visited occ ds queue
  = Ok (queue ++ fresh_neighbours w h c visited occ ds).
Proof.
  intros Hw Hh. revert queue.
  induction ds as [|d ds IH]; intros queue; simpl.
  - by rewrite app_nil_r.
  - rewrite wrap_step_nonzero by done. simpl.
    unfold fresh_neighbours. rewrite fmap_cons, filter_cons.
    case_decide; rewrite IH; [|done].
    by rewrite <- app_assoc.
Qed.

Lemma fresh_neighbours_length w h c visited occ ds :
  (length (fresh_neighbours w h c visited occ ds) ≤ length ds)%nat.
Proof.
  unfold fresh_neighbours.
  etrans; [apply length_filter|]. by rewrite length_fmap.
Qed.

Lemma elem_of_fresh_neighbours w h c visited occ ds n :
  n ∈ fresh_neighbours w h c visited occ ds ↔
  ((n ∉ visited) ∧ (n ∉ occ)) ∧ ∃ d, n = wrap_cell w h c d ∧ d ∈ ds.
Proof.
  unfold fresh_neighbours. by rewrite list_elem_of_filter, list_elem_of_fmap.
Qed.

Lemma loop_inv_init w h occ start : loop_inv w h occ start ∅ [start].
Proof.
  split.
  - set_solver.
  - intros c ->%list_elem_of_singleton. by constructor.
  - set_solver.
  - right; right. apply list_elem_of_here.
Qed.

Lemma loop_inv_skip w h occ start visited c rest :
  loop_inv w h occ start visited (c :: rest) →
  c ∈ visited ∨ c ∈ occ →
  loop_inv w h occ start visited rest.
Proof.
  intros [Hv Hq Hc Hs] Hskip. split.
  - done.
  - intros c' Hin. apply Hq. by apply list_elem_of_further.
  - intros c' d Hin Hfree.
    destruct (Hc c' d Hin Hfree) as [?|[Heq|?]%elem_of_cons];
      [by left| |by right].
    rewrite Heq in *. destruct Hskip; [by left | done].
  - destruct Hs as [?|[?|[->|?]%elem_of_cons]]; [by left|by right; left| |by right; right].
    destruct Hskip; [by right; left | by left].
Qed.

Lemma loop_inv_visit w h occ start visited c rest :
  loop_inv w h occ start visited (c :: rest) →
  c ∉ visited → c ∉ occ →
  loop_inv w h occ start ({[c]} ∪ visited)
    (rest ++ fresh_neighbours w h c ({[c]} ∪ visited) occ Direction_members).
Proof.
  intros [Hv Hq Hc Hs] Hnv Hfree.
  assert (Hrc : reach w h occ start c).
  { apply Hq; [apply list_elem_of_here | done]. }
  split.
  - intros c' [->%elem_of_singleton|?]%elem_of_union; auto.
  - intros c' [Hin|Hin]%elem_of_app Hc'.
    + apply Hq; [by apply list_elem_of_further | done].
    + apply elem_of_fresh_neighbours in Hin as (_ & d & -> & _).
      by constructor.
  - intros c' d Hin Hfd.
    destruct (decide (wrap_cell w h c' d ∈ {[c]} ∪ visited)) as [?|Hfresh];
      [by left|]. right.
    apply elem_of_union in Hin as [->%elem_of_singleton|Hin].
    + apply elem_of_app. right. apply elem_of_fresh_neighbours.
      split; [done|]. exists d. split; [done | apply members_all].
    + destruct (Hc c' d Hin Hfd) as [?|[Heq|?]%elem_of_cons].
      * set_solver.
      * set_solver.
      * apply elem_of_app. by left.
  - destruct Hs as [?|[?|[->|?]%elem_of_cons]].
    + by left.
    + right; left. set_solver.
    + right; left. set_solver.
    + right; right. apply elem_of_app. by left.
Qed.

Lemma loop_inv_done w h occ start visited :
  loop_inv w h occ start visited [] →
  ∀ c, c ∈ visited ↔ reach w h occ start c.
Proof.
  intros [Hv Hq Hc Hs] c. split; [apply Hv|].
  induction 1 as [Hfree|c d Hr IH Hfree].
  - destruct Hs as [?|[?|Hin]]; [done..|]. by apply elem_of_nil in Hin.
  - destruct (Hc c d IH Hfree) as [?|Hin]; [done|].
    by apply elem_of_nil in Hin.
Qed.

(** Partial correctness of the loop: whatever it returns is the set of
    reachable cells. *)
Lemma flood_fill_loop_reach fuel w h occ start visited queue res :
  w ≠ 0 → h ≠ 0 →
  loop_inv w h occ start visited queue →
  flood_fill_loop fuel w h occ visited queue = Ok res →
  ∀ c, c ∈ res ↔ reach w h occ start c.
Proof.
  intros Hw Hh. revert visited queue.
  induction fuel as [|fuel IH]; intros visited queue Hinv;
    destruct queue as [|c rest]; simpl.
  - intros [= <-]. by apply loop_inv_done.
  - done.
  - intros [= <-]. by apply loop_inv_done.
  - case_decide as Hskip.
    + apply IH. by eapply loop_inv_skip.
    + rewrite enqueue_neighbours_Ok by done. simpl.
      apply IH. apply loop_inv_visit; [done|tauto..].
Qed.

(** *** Termination within the fuel *)

Lemma mod_in_residues (a w : Z) : w ≠ 0 → a `mod` w ∈ residues w.
Proof.
  intros Hw. unfold residues. case_decide.
  - apply elem_of_seqZ. pose proof (Z.mod_pos_bound a w). lia.
  - apply elem_of_seqZ. pose proof (Z.mod_neg_bound a w). lia.
Qed.

Lemma wrap_cell_on_board w h c d :
  w ≠ 0 → h ≠ 0 → wrap_cell w h c d ∈ board_cells w h.
Proof.
  intros Hw Hh. unfold board_cells, wrap_cell.
  apply list_elem_of_bind. eexists. split; [|by apply mod_in_residues].
  apply list_elem_of_bind. eexists. split; [|by apply mod_in_residues].
  apply list_elem_of_here.
Qed.

Lemma size_list_to_set_le (l : list Cell) :
  (size (list_to_set l : gset Cell) ≤ length l)%nat.
Proof.
  induction l as [|c l IH].
  - by rewrite list_to_set_nil, size_empty.
  - rewrite list_to_set_cons, length_cons.
    rewrite size_union_alt, size_singleton.
    assert (size ((list_to_set l : gset Cell) ∖ {[c]})
            ≤ size (list_to_set l : gset Cell))%nat
      by (apply subseteq_size; set_solver).
    lia.
Qed.

Lemma size_universe w h start :
  (size (universe w h start) ≤ S (length (board_cells w h)))%nat.
Proof.
  unfold universe. rewrite size_union_alt, size_singleton.
  pose proof (size_list_to_set_le (board_cells w h)).
  assert (size ((list_to_set (board_cells w h) : gset Cell) ∖ {[start]})
          ≤ size (list_to_set (board_cells w h) : gset Cell))%nat
    by (apply subseteq_size; set_solver).
  lia.
Qed.

(** With every queued and visited cell in the universe, the loop finishes
    as soon as the fuel covers the queue plus one round of neighbours for
    each cell not yet visited. *)
Lemma flood_fill_loop_total fuel w h occ start visited queue :
  w ≠ 0 → h ≠ 0 →
  visited ⊆ universe w h start →
  (∀ c, c ∈ queue → c ∈ universe w h start) →
  (length queue
   + length Direction_members * size (universe w h start ∖ visited)
   ≤ fuel)%nat →
  ∃ res, flood_fill_loop fuel w h occ visited queue = Ok res.
Proof.
  intros Hw Hh. revert visited queue.
  induction fuel as [|fuel IH]; intros visited queue Hvis Hq Hfuel;
    destruct queue as [|c rest]; simpl in *; try by eexists.
  - lia.
  - case_decide as Hskip.
    + apply IH; [done| |lia].
      intros c' Hin. apply Hq. by apply list_elem_of_further.
    + rewrite enqueue_neighbours_Ok by done. simpl.
      assert (Hc : c ∈ universe w h start) by apply Hq, list_elem_of_here.
      assert (Hnv : c ∉ visited) by tauto.
      assert (Hsize : size (universe w h start ∖ visited)
                      = S (size (universe w h start ∖ ({[c]} ∪ visited)))).
      { assert (Heq : universe w h start ∖ visited
                      = {[c]} ∪ universe w h start ∖ ({[c]} ∪ visited)).
        { apply set_eq. intros x.
          destruct (decide (x = c)) as [->|]; set_solver. }
        rewrite Heq at 1. rewrite size_union by set_solver.
        by rewrite size_singleton. }
      apply IH.
      * set_solver.
      * intros c' [Hin|Hin]%elem_of_app.
        -- apply Hq. by apply list_elem_of_further.
        -- apply elem_of_fresh_neighbours in Hin as (_ & d & -> & _).
           apply elem_of_union. right. apply elem_of_list_to_set.
           by apply wrap_cell_on_board.
      * rewrite length_app.
        pose proof (fresh_neighbours_length w h c ({[c]} ∪ visited) occ
                      Direction_members).
        rewrite Hsize in Hfuel. lia.
Qed.

(** On a board without a zero dimension the fill returns exactly the
    reachable cells. *)
Lemma flood_fill_visited_reach pos board occ :
  width board ≠ 0 → height board ≠ 0 →
  ∃ res, flood_fill_visited pos board occ = Ok res
       ∧ ∀ c, c ∈ res ↔ reach (width board) (height board) occ pos c.
Proof.
  intros Hw Hh. unfold flood_fill_visited.
  destruct (flood_fill_loop_total
              (flood_fill_fuel (width board) (height board))
              (width board) (height board) occ pos ∅ [pos])
    as [res Hres]; try done.
  - intros c ->%list_elem_of_singleton. unfold universe. set_solver.
  - unfold flood_fill_fuel. simpl.
    pose proof (size_universe (width board) (height board) pos).
    assert (size (universe (width board) (height board) pos ∖ ∅)
            ≤ size (universe (width board) (height board) pos))%nat
      by (apply subseteq_size; set_solver).
    nia.
  - exists res. split; [done|].
    eapply flood_fill_loop_reach; [done..|apply loop_inv_init|done].
Qed.

(** On a board with a zero dimension the first wrap raises, unless the
    start is occupied and nothing is visited. *)
Lemma flood_fill_visited_degenerate pos board occ :
  width board = 0 ∨ height board = 0 →
  flood_fill_visited pos board occ
  = if decide (pos ∈ occ) then Ok ∅ else Raise ZeroDivisionError.
Proof.
  intros Hz. unfold flood_fill_visited, flood_fill_fuel. simpl.
  destruct (decide (pos ∈ occ)) as [Hocc|Hocc].
  - rewrite decide_True by (by right). by destruct (_ * _)%nat.
  - rewrite decide_False by set_solver.
    pose proof (members_all UP) as Hup.
    destruct Direction_members as [|d ds]; [by apply elem_of_nil in Hup|].
    simpl. by rewrite wrap_step_zero.
Qed.

Lemma reach_antitone (w h : Z) (O1 O2 : gset Cell) (start c : Cell) :
  O1 ⊆ O2 → reach w h O2 start c → reach w h O1 start c.
Proof.
  intros Hsub. induction 1; constructor; set_solver.
Qed.

(** C3: enlarging the occupied set never increases the count. Whenever
    both fills return, the count for the larger set is at most the count
    for the smaller one; on a board whose dimensions are not zero both
    fills do return; and no fill runs out of fuel. *)
Theorem flood_fill_space_antitone (pos : Cell) (board : Board)
    (O1 O2 : gset Cell) :
  O1 ⊆ O2 →
  (∀ n1 n2,
     flood_fill_space pos board O1 = Ok n1 →
     flood_fill_space pos board O2 = Ok n2 →
     n2 ≤ n1)
  ∧ (width board ≠ 0 → height board ≠ 0 →
     ∃ n1 n2,
       flood_fill_space pos board O1 = Ok n1
       ∧ flood_fill_space pos board O2 = Ok n2
       ∧ n2 ≤ n1)
  ∧ flood_fill_space pos board O1 ≠ OutOfFuel
  ∧ flood_fill_space pos board O2 ≠ OutOfFuel.
Proof.
  intros Hsub. unfold flood_fill_space.
  destruct (decide (width board = 0 ∨ height board = 0)) as [Hz|Hnz].
  - rewrite !flood_fill_visited_degenerate by done.
    split; [|split; [lia|]].
    + intros n1 n2. repeat case_decide; simpl; try done.
      by intros [= <-] [= <-].
    + repeat case_decide; done.
  - assert (Hw : width board ≠ 0) by tauto.
    assert (Hh : height board ≠ 0) by tauto.
    destruct (flood_fill_visited_reach pos board O1 Hw Hh)
      as (v1 & -> & Hv1).
    destruct (flood_fill_visited_reach pos board O2 Hw Hh)
      as (v2 & -> & Hv2).
    simpl.
    assert (Hle : Z.of_nat (size v2) ≤ Z.of_nat (size v1)).
    { apply Nat2Z.inj_le, subseteq_size. intros c Hc.
      apply Hv1. eapply reach_antitone; [done|]. by apply Hv2. }
    split; [by intros n1 n2 [= <-] [= <-]|].
    split; [|done].
    intros _ _. by exists (Z.of_nat (size v1)), (Z.of_nat (size v2)).
Qed.
End FloodFillProofs.

(** Adding the cell [(6, 6)] to the occupied set takes one cell off the
    count from [(6, 5)] on the open 8 x 8 board. *)
Lemma flood_fill_space_antitone_witness :
  flood_fill_space (6, 5) open_board {[ (5, 5) ]} = Ok 63
  ∧ flood_fill_space (6, 5) open_board {[ (5, 5); (6, 6) ]} = Ok 62
  ∧ 62 ≤ 63.
Proof.
  assert (H1 : flood_fill_space (6, 5) open_board {[ (5, 5) ]} = Ok 63)
    by (vm_compute; reflexivity).
  assert (H2 : flood_fill_space (6, 5) open_board {[ (5, 5); (6, 6) ]}
               = Ok 62)
    by (vm_compute; reflexivity).
  assert (Hsub : ({[ (5, 5) ]} : gset Cell) ⊆ {[ (5, 5); (6, 6) ]})
    by (apply (bool_decide_unpack _); vm_compute; reflexivity).
  split; [exact H1|]. split; [exact H2|].
  exact (proj1 (flood_fill_space_antitone (6, 5) open_board _ _ Hsub)
           63 62 H1 H2).
Defined.

(** ** Answering a query *)

Section Answers.
Context `{CaseClosedGame}.
Import Agent.

Lemma flood_fill_space_Ok pos board occ :
  width board ≠ 0 → height board ≠ 0 →
  ∃ n, flood_fill_space pos board occ = Ok n.
Proof.
  intros Hw Hh. unfold flood_fill_space.
  destruct (flood_fill_visited_reach pos board occ Hw Hh) as (v & -> & _).
  by eexists.
Qed.

Lemma move_options_loop_Ok ds head board blocked acc :
  width board ≠ 0 → height board ≠ 0 →
  ∃ res, move_options_loop ds head board blocked acc = Ok res.
Proof.
  intros Hw Hh. revert acc. induction ds as [|d ds IH]; intros acc; simpl.
  - by eexists.
  - rewrite wrap_step_nonzero by done. simpl. case_decide; [apply IH|].
    destruct (flood_fill_space_Ok (wrap_cell (width board) (height board)
                head d) board blocked Hw Hh) as [n ->].
    simpl. apply IH.
Qed.

Lemma read_scene_Ok my opp board :
  trail my ≠ [] →
  (alive opp = true → trail opp ≠ []) →
  width board ≠ 0 → height board ≠ 0 →
  ∃ sc, read_scene my opp board = Ok sc.
Proof.
  intros Hmy Hopp Hw Hh. unfold read_scene, opp_head_of.
  destruct (last (trail my)) as [head|] eqn:Hlast;
    [|by apply last_None in Hlast]. simpl.
  assert (Hoh : ∃ oh, (if alive opp
      then h ← opt_get (last (trail opp)) IndexError; Ok (Some h)
      else Ok None) = Ok oh).
  { destruct (alive opp); [|by eexists].
    destruct (last (trail opp)) as [oh|] eqn:Hl; [by eexists|].
    apply last_None in Hl. by destruct Hopp. }
  destruct Hoh as [oh ->]. simpl.
  destruct (trail my) as [|start t] eqn:Ht; [done|]. simpl.
  unfold pymod. rewrite decide_False by done. simpl.
  match goal with
  | |- context [move_options_loop ?ds ?hd ?b ?bl ?acc] =>
      destruct (move_options_loop_Ok ds hd b bl acc Hw Hh) as [mo ->]
  end.
  by eexists.
Qed.

Lemma sort_desc_nonempty cands : cands ≠ [] → sort_desc cands ≠ [].
Proof.
  intros Hne Hs. pose proof (sort_desc_perm cands) as Hp.
  rewrite Hs in Hp. by apply Permutation_nil_l in Hp.
Qed.

Lemma choose_nonempty_Some head board occ cands cur :
  cands ≠ [] →
  ∃ d, (choose_non_suicidal_move head board occ cands cur).2 = Some d.
Proof.
  intros Hne. unfold choose_non_suicidal_move.
  destruct cands as [|c0 cands']; [done|].
  pose proof (sort_desc_nonempty (c0 :: cands') Hne) as Hs.
  destruct (sort_desc (c0 :: cands')) as [|c s]; [done|].
  destruct (first_non_suicidal _ _ _ _) as [d|]; simpl; by eexists.
Qed.

Lemma checked_or_choose_Some proposal head board occ mo cur :
  mo ≠ [] →
  ∃ d, (checked_or_choose proposal head board occ mo cur).2 = Some d.
Proof.
  intros Hne. unfold checked_or_choose.
  destruct proposal as [d|]; [|by apply choose_nonempty_Some].
  destruct (is_suicidal _ _ _ _); simpl;
    [by apply choose_nonempty_Some | by eexists].
Qed.

Lemma decide_by_phase_Some phase dx head cy ex board occ mo cur :
  mo ≠ [] →
  ∃ d, (decide_by_phase phase dx head cy ex board occ mo cur).2.2 = Some d.
Proof.
  intros Hne. destruct phase; simpl.
  - by apply choose_nonempty_Some.
  - destruct (panic_tentative dx head cy ex) as [[p e] t]. simpl.
    by apply checked_or_choose_Some.
  - by apply checked_or_choose_Some.
Qed.

Lemma phased_decision_answers phase dx head oh cy ex board occ mo cur :
  mo ≠ [] →
  ∃ d, (phased_decision phase dx head oh cy ex board occ mo cur).2 = Ok d.
Proof.
  intros Hne. unfold phased_decision.
  match goal with
  | |- context [decide_by_phase ?p ?e ?hd ?y ?x ?b ?o ?m ?c] =>
      destruct (decide_by_phase_Some p e hd y x b o m c Hne) as [d Hd];
      destruct (decide_by_phase p e hd y x b o m c) as [[p' e'] [mo' ch]]
  end.
  simpl in Hd. subst ch. by exists d.
Qed.

(** The phased agent answers every query once both trails it reads are
    non-empty and the board has no zero dimension. *)
Lemma send_move_answers pn st :
  let gm := GLOBAL_GAME (globals st) in
  trail (my_agent_of pn gm) ≠ [] →
  (alive (opponent_of pn gm) = true → trail (opponent_of pn gm) ≠ []) →
  width (board gm) ≠ 0 → height (board gm) ≠ 0 →
  ∃ d, (send_move pn st).2 = Ok d.
Proof.
  intros gm Hmy Hopp Hw Hh. unfold send_move. fold gm.
  destruct (default (floodfill, 0) (send_move_attrs st)) as [ph dx].
  destruct (read_scene_Ok _ _ _ Hmy Hopp Hw Hh) as [sc ->].
  destruct (sc_move_options sc) as [|c mo] eqn:Hmo; [by eexists|].
  destruct (phased_decision_answers ph dx (sc_head sc) (sc_opp_head sc)
    (sc_corridor_y sc) (sc_exit_x sc) (board gm) (sc_occupied_trails sc)
    (c :: mo) (direction (my_agent_of pn gm))) as [d Hd]; [done|].
  destruct (phased_decision _ _ _ _ _ _ _ _ _ _) as [[p e] a].
  simpl in *. by exists d.
Qed.

End Answers.

(** In the simple agent a query with boosts left and no safe move reaches
    the boost test with [max_space] unbound. *)
Lemma simple_agent_unbound_max_space `{CaseClosedGame} (pn : Z)
    (gl : Globals) (head : Cell) (opp_head : option Cell) :
  let gm := GLOBAL_GAME gl in
  last (trail (my_agent_of pn gm)) = Some head →
  opp_head_of (opponent_of pn gm) = Ok opp_head →
  SampleAgent.safe_moves_loop
    (non_reversing (direction (my_agent_of pn gm))) head opp_head
    (my_agent_of pn gm) (opponent_of pn gm) (board gm) [] = Ok [] →
  boosts_remaining (my_agent_of pn gm) > 0 →
  SampleAgent.send_move pn gl = Raise UnboundLocalError.
Proof.
  intros gm Hhead Hopp Hsafe Hboost. unfold SampleAgent.send_move.
  fold gm. rewrite Hhead. simpl. rewrite Hopp. simpl. rewrite Hsafe. simpl.
  by rewrite decide_True.
Qed.

(** C1, failing query: the simple agent, enclosed by its own trail with three
    boosts left, has no safe move; the phased agent answers the same game
    with a best-effort direction, the simple one raises
    [UnboundLocalError] instead of continuing its heading. *)
Theorem simple_agent_raises_when_trapped :
  SampleAgent.safe_moves_loop (non_reversing RIGHT) (1, 1) (Some (10, 10))
    trapped_agent far_agent (synced_board 20 18 trapped_agent far_agent) []
  = Ok []
  ∧ boosts_remaining trapped_agent = 3
  ∧ (Agent.send_move 1 (Agent.mkState trapped_globals None)).2 = Ok UP
  ∧ SampleAgent.send_move 1 trapped_globals = Raise UnboundLocalError.
Proof.
  assert (Hsafe : SampleAgent.safe_moves_loop (non_reversing RIGHT) (1, 1)
            (Some (10, 10)) trapped_agent far_agent
            (synced_board 20 18 trapped_agent far_agent) []
          = Ok []) by (vm_compute; reflexivity).
  split; [exact Hsafe|]. split; [reflexivity|].
  split; [vm_compute; reflexivity|].
  by apply (simple_agent_unbound_max_space 1 trapped_globals (1, 1)
              (Some (10, 10))).
Qed.

(** ** The POST handlers *)

Lemma first_rejected_None (rejected : list Key) :
  first_rejected rejected = None ↔ rejected = [].
Proof.
  split; [|by intros ->].
  unfold first_rejected, conversion_order. simpl.
  repeat case_bool_decide; try done. intros _.
  destruct rejected as [|k rejected]; [done|].
  destruct k; set_solver.
Qed.

Lemma first_rejected_Some (rejected : list Key) (k : Key) :
  first_rejected rejected = Some k →
  k ∈ rejected
  ∧ ∀ k', (statement_of k' < statement_of k)%nat → k' ∉ rejected.
Proof.
  unfold first_rejected, conversion_order. simpl.
  repeat case_bool_decide; intros [= <-]; (split; [done|]);
    intros k'; destruct k'; simpl; intros Hlt; solve [done | lia].
Qed.

(** The ingestion of a dict stops at the first rejected value it comes to,
    having handled the entries before it; with no rejected value it is the
    ingestion of the payload. *)
Lemma update_raw_outcome (data : Payload) (rejected : list Key)
    (gl : Globals) :
  _update_local_game_from_post_raw data rejected gl =
  match first_rejected rejected with
  | Some k =>
      (mkGlobals
         (GLOBAL_GAME
            (_update_local_game_from_post (entries_before k data) gl))
         data, false)
  | None => (_update_local_game_from_post data gl, true)
  end.
Proof.
  unfold _update_local_game_from_post_raw, first_rejected, conversion_order,
    if_present_converted.
  cbn [find].
  assert (Hcase : ∀ k, (bool_decide (k ∈ rejected) = true ∧ k ∈ rejected)
                       ∨ (bool_decide (k ∈ rejected) = false
                          ∧ k ∉ rejected)).
  { intros k. case_bool_decide; auto. }
  destruct (Hcase key_agent1_trail) as [[-> H1]|[-> H1]];
    destruct (decide (key_agent1_trail ∈ rejected)); try done.
  destruct (Hcase key_agent2_trail) as [[-> H2]|[-> H2]];
    destruct (decide (key_agent2_trail ∈ rejected)); try done.
  destruct (Hcase key_agent1_length) as [[-> H3]|[-> H3]];
    destruct (decide (key_agent1_length ∈ rejected)); try done.
  destruct (Hcase key_agent2_length) as [[-> H4]|[-> H4]];
    destruct (decide (key_agent2_length ∈ rejected)); try done.
  destruct (Hcase key_agent1_boosts) as [[-> H5]|[-> H5]];
    destruct (decide (key_agent1_boosts ∈ rejected)); try done.
  destruct (Hcase key_agent2_boosts) as [[-> H6]|[-> H6]];
    destruct (decide (key_agent2_boosts ∈ rejected)); try done.
  destruct (Hcase key_turn_count) as [[-> H7]|[-> H7]];
    destruct (decide (key_turn_count ∈ rejected)); done.
Qed.

Lemma update_raw_returned (data : Payload) (rejected : list Key)
    (gl : Globals) :
  (_update_local_game_from_post_raw data rejected gl).2 = true
  ↔ rejected = [].
Proof.
  rewrite update_raw_outcome, <- first_rejected_None.
  by destruct (first_rejected rejected).
Qed.

Lemma update_raw_accepted (data : Payload) (gl : Globals) :
  _update_local_game_from_post_raw data [] gl
  = (_update_local_game_from_post data gl, true).
Proof. by rewrite update_raw_outcome. Qed.

Lemma dict_truthy_rejected (data : Payload) (rejected : list Key) :
  rejected ≠ [] → dict_truthy data rejected = true.
Proof.
  intros Hne. unfold dict_truthy.
  rewrite bool_decide_eq_false_2 by done. apply orb_true_r.
Qed.

Section HandlerOutcomes.
Context `{CaseClosedGame}.
Import Agent.

(** A state sync leaves the attributes of [send_move] alone. *)
Lemma receive_state_attrs (body : Body) (st : State) :
  send_move_attrs (receive_state body st).1 = send_move_attrs st.
Proof.
  unfold receive_state. destruct body as [| |data rejected]; try done.
  destruct (dict_truthy data rejected); [|done].
  by destruct (_update_local_game_from_post_raw _ _ _) as [gl []].
Qed.

(** A match end either completes, and then has reset the attributes, or is
    left by an exception, and then has not touched them. *)
Lemma end_game_cases (body : Body) (st : State) :
  (accepted body
   ∧ (end_game body st).2 = Status 200
   ∧ send_move_attrs (end_game body st).1 = Some (floodfill, 0))
  ∨ (¬ accepted body
     ∧ (end_game body st).2 = Raised
     ∧ send_move_attrs (end_game body st).1 = send_move_attrs st).
Proof.
  unfold end_game. destruct body as [| |data rejected].
  - right. simpl. split; [tauto | done].
  - by left.
  - destruct (decide (rejected = [])) as [->|Hne].
    + left. rewrite update_raw_accepted.
      by destruct (dict_truthy data []).
    + right. rewrite dict_truthy_rejected by done.
      destruct (_update_local_game_from_post_raw data rejected (globals st))
        as [gl returned] eqn:Hraw.
      assert (Hret : returned = false).
      { destruct returned; [|done]. destruct Hne.
        apply (update_raw_returned data rejected (globals st)).
        by rewrite Hraw. }
      by rewrite Hret.
Qed.

End HandlerOutcomes.

(** ** The phase state machine *)

Section Phases.
Context `{CaseClosedGame}.
Import Agent.

Lemma decide_by_phase_phase phase dx head cy ex board occ mo cur :
  (decide_by_phase phase dx head cy ex board occ mo cur).1.1 =
  match phase with
  | panic =>
      if decide (head.2 = cy ∧ head.1 = ex) then post_corridor_fill
      else panic
  | _ => phase
  end.
Proof.
  destruct phase; simpl; try done.
  unfold panic_tentative. repeat case_decide; simpl; try done; tauto.
Qed.

Lemma phased_decision_phase phase dx head oh cy ex board occ mo cur :
  (phased_decision phase dx head oh cy ex board occ mo cur).1.1 =
  (decide_by_phase
     (infiltration_check (panic_trigger phase (horiz_sep head oh))
        head oh cy ex)
     dx head cy ex board occ mo cur).1.1.
Proof.
  unfold phased_decision.
  destruct (decide_by_phase _ _ _ _ _ _ _ _ _) as [[p d] [m [c|]]]; done.
Qed.

(** The phase a query leaves behind. *)
Lemma send_move_phase pn st :
  phase_of (send_move pn st).1 =
  match read_scene (my_agent_of pn (GLOBAL_GAME (globals st)))
          (opponent_of pn (GLOBAL_GAME (globals st)))
          (board (GLOBAL_GAME (globals st))) with
  | Ok sc =>
      match sc_move_options sc with
      | [] => phase_of st
      | _ :: _ => phase_after (phase_of st) sc
      end
  | _ => phase_of st
  end.
Proof.
  unfold send_move, phase_of.
  destruct (default (floodfill, 0) (send_move_attrs st)) as [ph dx] eqn:Hd.
  destruct (read_scene _ _ _) as [sc| |]; simpl; try done.
  destruct (sc_move_options sc) as [|c mo] eqn:Hmo; simpl; [done|].
  destruct (phased_decision _ _ _ _ _ _ _ _ _ _) as [[p d] a] eqn:Hpd.
  simpl. unfold phase_after.
  change p with (p, d, a).1.1. rewrite <- Hpd.
  by rewrite phased_decision_phase, decide_by_phase_phase.
Qed.

Lemma send_move_globals pn st : globals (send_move pn st).1 = globals st.
Proof.
  unfold send_move.
  destruct (default (floodfill, 0) (send_move_attrs st)) as [ph dx].
  destruct (read_scene _ _ _) as [sc| |]; simpl; try done.
  destruct (sc_move_options sc); simpl; [done|].
  by destruct (phased_decision _ _ _ _ _ _ _ _ _ _) as [[p d] a].
Qed.




(** How the scene of a query relates to the game it was read from. *)
Lemma read_scene_fields my opp bd sc :
  read_scene my opp bd = Ok sc →
  last (trail my) = Some (sc_head sc)
  ∧ sc_opp_head sc = (if alive opp then last (trail opp) else None)
  ∧ (∃ start, hd_error (trail my) = Some start
       ∧ sc_exit_x sc = start.1
       ∧ sc_corridor_y sc = (start.2 + height bd `div` 2) `mod` height bd)
  ∧ width bd ≠ 0 ∧ height bd ≠ 0.
Proof.
  unfold read_scene, opp_head_of.
  destruct (last (trail my)) as [head|] eqn:Hlast; simpl; [|done].
  assert (Hopp : ∀ A (k : option Cell → result A) r,
    ((if alive opp
      then h ← opt_get (last (trail opp)) IndexError; Ok (Some h)
      else Ok None) ≫= k) = Ok r →
    k (if alive opp then last (trail opp) else None) = Ok r).
  { intros A k r. destruct (alive opp); [|done].
    by destruct (last (trail opp)). }
  intros Hsc. apply Hopp in Hsc. clear Hopp.
  destruct (hd_error (trail my)) as [start|] eqn:Hhd; simpl in Hsc; [|done].
  unfold pymod in Hsc. case_decide as Hh; simpl in Hsc; [done|].
  destruct (move_options_loop _ _ _ _ _) as [mo| |] eqn:Hmo;
    simpl in Hsc; try done.
  injection Hsc as <-. simpl.
  split; [done|]. split; [done|]. split; [by exists start|].
  split; [|done].
  (* the width is not zero because the first candidate was wrapped *)
  destruct (non_reversing (direction my)) as [|d ds] eqn:Hds.
  - pose proof (members_all (direction my)) as Hcur.
    destruct (decide (value (direction my)
                      = neg_delta (value (direction my)))) as [Heq|Hne].
    + (* a heading that is its own reverse has delta (0, 0); another
         direction then survives the filter *)
      destruct (decide (direction my = UP)) as [Hup|Hup].
      * assert (Hd : DOWN ∈ non_reversing (direction my)).
        { apply non_reversing_spec. rewrite <- Heq. intros Hv.
          apply value_inj in Hv. congruence. }
        rewrite Hds in Hd. by apply elem_of_nil in Hd.
      * assert (Hd : UP ∈ non_reversing (direction my)).
        { apply non_reversing_spec. rewrite <- Heq. intros Hv.
          apply value_inj in Hv. congruence. }
        rewrite Hds in Hd. by apply elem_of_nil in Hd.
    + assert (Hd : direction my ∈ non_reversing (direction my))
        by by apply non_reversing_spec.
      rewrite Hds in Hd. by apply elem_of_nil in Hd.
  - simpl in Hmo.
    destruct (wrap_step (width bd) (height bd) head d) as [n| |] eqn:Hn;
      simpl in Hmo; try done.
    by apply wrap_step_Ok in Hn as (? & _).
Qed.


(** C5, amended: a query that starts in floodfill, gets past candidate
    generation with a non-empty candidate list and sees a living opponent
    whose head column differs from its own by at most 1 (plain absolute
    difference of the column numbers, no wrap-around) sets the phase to
    panic at the panic trigger; the call ends in panic, or in
    post_corridor_fill when it also detects infiltration or arrival. *)
Theorem panic_on_plain_column_distance (pn : Z) (st : State) (sc : Scene)
    (oh : Cell) :
  let gm := GLOBAL_GAME (globals st) in
  phase_of st = floodfill →
  read_scene (my_agent_of pn gm) (opponent_of pn gm) (board gm) = Ok sc →
  sc_move_options sc ≠ [] →
  sc_opp_head sc = Some oh →
  Z.abs ((sc_head sc).1 - oh.1) ≤ 1 →
  panic_trigger (phase_of st) (horiz_sep (sc_head sc) (sc_opp_head sc))
    = panic
  ∧ phase_of (send_move pn st).1 ≠ floodfill
  ∧ phase_of (send_move pn st).1 =
      (if decide (corridor_blocked panic (sc_head sc) (Some oh)
                    (sc_corridor_y sc) (sc_exit_x sc) = true
                  ∨ ((sc_head sc).2 = sc_corridor_y sc
                     ∧ (sc_head sc).1 = sc_exit_x sc))
       then post_corridor_fill else panic).
Proof.
  intros gm Hph Hsc Hmo Hoh Hsep.
  assert (Htrig : panic_trigger (phase_of st)
                    (horiz_sep (sc_head sc) (sc_opp_head sc)) = panic).
  { rewrite Hph, Hoh. simpl. unfold PANIC_THRESHOLD.
    case_decide; [done | tauto]. }
  assert (Hfin : phase_of (send_move pn st).1 =
      (if decide (corridor_blocked panic (sc_head sc) (Some oh)
                    (sc_corridor_y sc) (sc_exit_x sc) = true
                  ∨ ((sc_head sc).2 = sc_corridor_y sc
                     ∧ (sc_head sc).1 = sc_exit_x sc))
       then post_corridor_fill else panic)).
  { rewrite send_move_phase. fold gm. rewrite Hsc.
    destruct (sc_move_options sc) as [|c mo]; [done|].
    unfold phase_after. rewrite Htrig. unfold infiltration_check.
    rewrite Hoh.
    destruct (corridor_blocked panic _ _ _ _) eqn:Hb;
      repeat case_decide; naive_solver. }
  split; [done|]. split; [|done].
  rewrite Hfin. case_decide; done.
Qed.

(** C7, amended: for a query that is in panic at the infiltration check
    and has candidates, the corridor counts as infiltrated exactly when
    the agent is off the safe row and a living opponent's head is on the
    safe row at a column [x] with [head_x < x ≤ exit_x] or
    [exit_x ≤ x < head_x] (the exit column included, the agent's own
    column excluded); and the query ends in post_corridor_fill with the
    agent off the safe row exactly in that case. *)
Theorem infiltration_fires_exactly (pn : Z) (st : State) (sc : Scene) :
  let gm := GLOBAL_GAME (globals st) in
  let head := sc_head sc in
  let cy := sc_corridor_y sc in
  let ex := sc_exit_x sc in
  let infiltrated :=
    ∃ oh, sc_opp_head sc = Some oh ∧ oh.2 = cy ∧ head.2 ≠ cy
          ∧ ((head.1 < oh.1 ∧ oh.1 ≤ ex) ∨ (ex ≤ oh.1 ∧ oh.1 < head.1)) in
  read_scene (my_agent_of pn gm) (opponent_of pn gm) (board gm) = Ok sc →
  sc_move_options sc ≠ [] →
  panic_trigger (phase_of st) (horiz_sep head (sc_opp_head sc)) = panic →
  (corridor_blocked panic head (sc_opp_head sc) cy ex = true ↔ infiltrated)
  ∧ (phase_of (send_move pn st).1 = post_corridor_fill ∧ head.2 ≠ cy
     ↔ infiltrated).
Proof.
  intros gm head cy ex infiltrated Hsc Hmo Htrig.
  assert (Hblocked :
    corridor_blocked panic head (sc_opp_head sc) cy ex = true
    ↔ infiltrated).
  { unfold corridor_blocked, infiltrated.
    destruct (sc_opp_head sc) as [oh|].
    - split.
      + intros Hb. exists oh. split; [done|].
        repeat case_decide; try done. lia.
      + intros (oh' & [= <-] & Hinf).
        repeat case_decide; try done; lia.
    - split; [done | by intros (? & ? & _)]. }
  split; [done|].
  rewrite <- Hblocked, send_move_phase. fold gm. rewrite Hsc.
  destruct (sc_move_options sc) as [|c mo]; [done|].
  unfold phase_after. fold head cy ex. rewrite Htrig.
  unfold infiltration_check.
  destruct (corridor_blocked panic head (sc_opp_head sc) cy ex) eqn:Hb.
  - split; [done|]. intros _. split; [done|].
    by destruct (proj1 Hblocked eq_refl) as (oh & _ & _ & Hrow & _).
  - case_decide; naive_solver.
Qed.

End Phases.

(** *** Concrete matches on an 8 x 6 board *)

(** C5, counterexample: the query starts in floodfill with a living opponent
    one column away on the toroidal board, is answered, and leaves the phase
    at floodfill. *)
Lemma panic_not_triggered_across_the_edge :
  Agent.phase_of edge_state = Agent.floodfill
  ∧ alive (opponent_of 1 (GLOBAL_GAME (Agent.globals edge_state))) = true
  ∧ last (trail (my_agent_of 1 (GLOBAL_GAME (Agent.globals edge_state))))
    = Some (0, 5)
  ∧ last (trail (opponent_of 1 (GLOBAL_GAME (Agent.globals edge_state))))
    = Some (7, 3)
  ∧ toroidal_sep 8 0 7 ≤ 1
  ∧ (Agent.send_move 1 edge_state).2 = Ok UP
  ∧ Agent.phase_of (Agent.send_move 1 edge_state).1 = Agent.floodfill.
Proof. repeat split; vm_compute; congruence. Qed.

Lemma close_scene_read :
  Agent.read_scene edge_agent close_opponent
    (synced_board 8 6 edge_agent close_opponent) = Ok close_scene.
Proof. vm_compute. reflexivity. Qed.

Lemma panic_on_plain_column_distance_witness :
  Agent.panic_trigger (Agent.phase_of close_state)
    (Agent.horiz_sep (0, 5) (Some (1, 3))) = Agent.panic
  ∧ Agent.phase_of (Agent.send_move 1 close_state).1 ≠ Agent.floodfill
  ∧ Agent.phase_of (Agent.send_move 1 close_state).1 = Agent.panic.
Proof.
  apply (panic_on_plain_column_distance 1 close_state close_scene (1, 3)).
  - reflexivity.
  - exact close_scene_read.
  - discriminate.
  - reflexivity.
  - vm_compute; congruence.
Defined.

Lemma exit_blocked_scene_read :
  Agent.read_scene escaping_agent exit_opponent
    (synced_board 8 6 escaping_agent exit_opponent)
  = Ok exit_blocked_scene.
Proof. vm_compute. reflexivity. Qed.

(** C7, counterexample: the query is in panic and the opponent's head is on
    the safe row exactly on the exit column, hence not strictly between the
    agent's column and the exit column; yet the corridor counts as
    infiltrated and the query ends in post_corridor_fill. *)
Lemma opponent_on_exit_column_blocks :
  Agent.read_scene escaping_agent exit_opponent
    (synced_board 8 6 escaping_agent exit_opponent)
  = Ok exit_blocked_scene
  ∧ Agent.phase_of exit_blocked_state = Agent.panic
  ∧ ¬ strictly_between (Agent.sc_head exit_blocked_scene).1
        (Agent.sc_exit_x exit_blocked_scene) 5
  ∧ Agent.corridor_blocked Agent.panic (2, 0) (Some (5, 3)) 3 5 = true
  ∧ Agent.phase_of (Agent.send_move 1 exit_blocked_state).1
    = Agent.post_corridor_fill.
Proof.
  split; [exact exit_blocked_scene_read|].
  split; [reflexivity|]. split; [|split; vm_compute; reflexivity].
  unfold strictly_between. simpl. lia.
Qed.

Lemma infiltration_fires_exactly_witness :
  Agent.phase_of (Agent.send_move 1 exit_blocked_state).1
    = Agent.post_corridor_fill
  ∧ (2, 0).2 ≠ 3
  ↔ ∃ oh : Cell, Some (5, 3) = Some oh ∧ oh.2 = 3 ∧ (2, 0).2 ≠ 3
      ∧ (((2, 0).1 < oh.1 ∧ oh.1 ≤ 5) ∨ (5 ≤ oh.1 ∧ oh.1 < (2, 0).1)).
Proof.
  apply (infiltration_fires_exactly 1 exit_blocked_state exit_blocked_scene).
  - exact exit_blocked_scene_read.
  - discriminate.
  - reflexivity.
Defined.



(** * Further properties of the estimator *)

Section FloodFillMore.
Context `{CaseClosedGame}.

Lemma reach_start_free w h occ start c :
  reach w h occ start c → start ∉ occ.
Proof. induction 1; done. Qed.

Lemma reach_free w h occ start c : reach w h occ start c → c ∉ occ.
Proof. induction 1; done. Qed.

Lemma reach_in_universe w h occ start c :
  w ≠ 0 → h ≠ 0 → reach w h occ start c → c ∈ universe w h start.
Proof.
  intros Hw Hh. unfold universe. induction 1; [set_solver|].
  apply elem_of_union. right. apply elem_of_list_to_set.
  by apply wrap_cell_on_board.
Qed.

(** X1: on a board without a zero dimension the count is the number of
    cells of the region reachable from the start: the start when it is free
    and, step by step, the free wrapped neighbours of reached cells. *)
Theorem flood_fill_space_counts_reachable (pos : Cell) (board : Board)
    (occ : gset Cell) :
  width board ≠ 0 → height board ≠ 0 →
  ∃ region : gset Cell,
    (∀ c, c ∈ region ↔ reach (width board) (height board) occ pos c)
    ∧ flood_fill_space pos board occ = Ok (Z.of_nat (size region)).
Proof.
  intros Hw Hh.
  destruct (flood_fill_visited_reach pos board occ Hw Hh) as (v & Hv & Hr).
  exists v. split; [done|]. unfold flood_fill_space. by rewrite Hv.
Qed.

(** X4: the outcome of a fill.  It raises [ZeroDivisionError] exactly when
    a dimension of the board is zero and the start is free, returns a count
    otherwise, and never raises anything else nor exhausts its fuel. *)
Theorem flood_fill_space_outcome (pos : Cell) (board : Board)
    (occ : gset Cell) :
  (flood_fill_space pos board occ = Raise ZeroDivisionError
   ↔ (width board = 0 ∨ height board = 0) ∧ pos ∉ occ)
  ∧ ((∃ n, flood_fill_space pos board occ = Ok n)
     ↔ (width board ≠ 0 ∧ height board ≠ 0) ∨ pos ∈ occ)
  ∧ (∀ e, flood_fill_space pos board occ = Raise e → e = ZeroDivisionError)
  ∧ flood_fill_space pos board occ ≠ OutOfFuel.
Proof.
  unfold flood_fill_space.
  destruct (decide (width board = 0 ∨ height board = 0)) as [Hz|Hnz].
  - rewrite flood_fill_visited_degenerate by done.
    case_decide; simpl; repeat split; try done; try naive_solver.
  - assert (Hw : width board ≠ 0) by tauto.
    assert (Hh : height board ≠ 0) by tauto.
    destruct (flood_fill_visited_reach pos board occ Hw Hh) as (v & -> & _).
    simpl. repeat split; try done; try naive_solver.
Qed.

(** From an occupied start nothing is visited. *)
Lemma flood_fill_space_start_occupied pos board occ :
  pos ∈ occ → flood_fill_space pos board occ = Ok 0.
Proof.
  intros Hocc. unfold flood_fill_space, flood_fill_visited, flood_fill_fuel.
  simpl. rewrite decide_True by (by right). by destruct (_ * _)%nat.
Qed.

(** A free start counts itself. *)
Lemma flood_fill_space_start_free pos board occ n :
  pos ∉ occ → flood_fill_space pos board occ = Ok n → 0 < n.
Proof.
  intros Hfree. unfold flood_fill_space.
  destruct (decide (width board = 0 ∨ height board = 0)) as [Hz|Hnz].
  { rewrite flood_fill_visited_degenerate by done. by rewrite decide_False. }
  assert (Hw : width board ≠ 0) by tauto.
  assert (Hh : height board ≠ 0) by tauto.
  destruct (flood_fill_visited_reach pos board occ Hw Hh) as (v & -> & Hr).
  simpl. intros [= <-].
  assert (pos ∈ v) by (apply Hr; by constructor).
  assert (size v ≠ 0)%nat; [|lia].
  apply size_non_empty_iff. set_solver.
Qed.

(** X3: a returned count is never negative, and it is 0 exactly when the
    start cell is occupied: a free start always counts itself. *)
Theorem flood_fill_space_zero_iff_start_occupied (pos : Cell)
    (board : Board) (occ : gset Cell) (n : Z) :
  flood_fill_space pos board occ = Ok n →
  (n = 0 ↔ pos ∈ occ) ∧ 0 ≤ n.
Proof.
  intros Hn. destruct (decide (pos ∈ occ)) as [Hocc|Hfree].
  - rewrite (flood_fill_space_start_occupied pos board occ Hocc) in Hn.
    injection Hn as <-. done.
  - pose proof (flood_fill_space_start_free pos board occ n Hfree Hn).
    split; [|lia]. split; [lia | done].
Qed.

Lemma length_bind_const {A B} (f : A → list B) (k : nat) (l : list A) :
  (∀ x, length (f x) = k) → length (l ≫= f) = (length l * k)%nat.
Proof.
  intros Hf. induction l as [|x l IH]; [done|].
  rewrite bind_cons, length_app, IH, Hf. simpl. lia.
Qed.

Lemma length_board_cells (w h : Z) :
  length (board_cells w h)
  = (length (residues w) * length (residues h))%nat.
Proof.
  unfold board_cells. apply length_bind_const. intros x.
  rewrite (length_bind_const _ 1%nat); [lia | done].
Qed.

Lemma on_board_in_board_cells (w h : Z) (c : Cell) :
  0 ≤ c.1 < w → 0 ≤ c.2 < h → c ∈ board_cells w h.
Proof.
  intros Hx Hy. destruct c as [x y]. simpl in *.
  unfold board_cells, residues. rewrite !decide_True by lia.
  apply list_elem_of_bind. exists x. split; [|apply elem_of_seqZ; lia].
  apply list_elem_of_bind. exists y. split; [|apply elem_of_seqZ; lia].
  apply list_elem_of_here.
Qed.

(** X5: from a start cell on a board with positive dimensions the count is
    at most the number of cells of the board. *)
Theorem flood_fill_space_at_most_board (pos : Cell) (board : Board)
    (occ : gset Cell) (n : Z) :
  0 ≤ pos.1 < width board → 0 ≤ pos.2 < height board →
  flood_fill_space pos board occ = Ok n →
  n ≤ width board * height board.
Proof.
  intros Hx Hy.
  assert (Hw : width board ≠ 0) by lia.
  assert (Hh : height board ≠ 0) by lia.
  unfold flood_fill_space.
  destruct (flood_fill_visited_reach pos board occ Hw Hh) as (v & -> & Hr).
  simpl. intros [= <-].
  assert (Hsub : v ⊆ list_to_set (board_cells (width board) (height board))).
  { intros c Hc%Hr. apply elem_of_list_to_set.
    destruct Hc; [by apply on_board_in_board_cells|].
    by apply wrap_cell_on_board. }
  apply subseteq_size in Hsub.
  pose proof (size_list_to_set_le
                (board_cells (width board) (height board))) as Hlen.
  rewrite length_board_cells in Hlen. unfold residues in Hlen.
  rewrite !decide_True, !length_seqZ in Hlen by lia. nia.
Qed.

(** X6: occupying a cell of the reachable region makes the count strictly
    smaller. *)
Theorem flood_fill_space_shrinks_when_blocked (pos c : Cell) (board : Board)
    (occ : gset Cell) (n1 n2 : Z) :
  reach (width board) (height board) occ pos c →
  flood_fill_space pos board occ = Ok n1 →
  flood_fill_space pos board ({[c]} ∪ occ) = Ok n2 →
  n2 < n1.
Proof.
  intros Hc. unfold flood_fill_space.
  destruct (decide (width board = 0 ∨ height board = 0)) as [Hz|Hnz].
  { rewrite flood_fill_visited_degenerate by done.
    apply reach_start_free in Hc. by rewrite decide_False. }
  assert (Hw : width board ≠ 0) by tauto.
  assert (Hh : height board ≠ 0) by tauto.
  destruct (flood_fill_visited_reach pos board occ Hw Hh) as (v1 & -> & Hr1).
  destruct (flood_fill_visited_reach pos board ({[c]} ∪ occ) Hw Hh)
    as (v2 & -> & Hr2).
  simpl. intros [= <-] [= <-].
  assert (Hsub : v2 ⊆ v1 ∖ {[c]}).
  { intros x Hx%Hr2. apply elem_of_difference. split.
    - apply Hr1. eapply reach_antitone; [|done]. set_solver.
    - apply reach_free in Hx. set_solver. }
  apply subseteq_size in Hsub.
  assert (Hin : c ∈ v1) by by apply Hr1.
  assert (Heq : v1 = {[c]} ∪ v1 ∖ {[c]}).
  { apply set_eq. intros x. destruct (decide (x = c)) as [->|]; set_solver. }
  assert (Hsize : size v1 = S (size (v1 ∖ {[c]}))).
  { rewrite Heq at 1. by rewrite size_union, size_singleton by set_solver. }
  lia.
Qed.
End FloodFillMore.

(** X2: the count does not depend on the order in which the directions are
    enumerated: two game libraries with the same deltas give the same
    outcome. *)
Theorem flood_fill_space_order_invariant (G1 G2 : CaseClosedGame) (pos : Cell)
    (board : Board) (occ : gset Cell) :
  (∀ d, @value G1 d = @value G2 d) →
  @flood_fill_space G1 pos board occ = @flood_fill_space G2 pos board occ.
Proof.
  intros Hval. unfold flood_fill_space.
  destruct (decide (width board = 0 ∨ height board = 0)) as [Hz|Hnz].
  { by rewrite !flood_fill_visited_degenerate. }
  assert (Hw : width board ≠ 0) by tauto.
  assert (Hh : height board ≠ 0) by tauto.
  destruct (@flood_fill_visited_reach G1 pos board occ Hw Hh)
    as (v1 & -> & Hr1).
  destruct (@flood_fill_visited_reach G2 pos board occ Hw Hh)
    as (v2 & -> & Hr2).
  assert (Hwrap : ∀ w h c d, @wrap_cell G1 w h c d = @wrap_cell G2 w h c d).
  { intros. unfold wrap_cell. by rewrite Hval. }
  assert (Hreach : ∀ c, @reach G1 (width board) (height board) occ pos c
                        ↔ @reach G2 (width board) (height board) occ pos c).
  { intros c. split; induction 1; try by constructor.
    - rewrite Hwrap in *. by constructor.
    - rewrite <- Hwrap in *. by constructor. }
  assert (v1 = v2) as ->; [|done].
  apply set_eq. intros c. by rewrite Hr1, Hr2, Hreach.
Qed.

Lemma flood_fill_space_counts_reachable_witness :
  ∃ region : gset Cell,
    (∀ c, c ∈ region ↔ reach 8 8 {[ (5, 5) ]} (6, 5) c)
    ∧ flood_fill_space (6, 5) open_board {[ (5, 5) ]}
      = Ok (Z.of_nat (size region)).
Proof.
  apply (flood_fill_space_counts_reachable (6, 5) open_board {[ (5, 5) ]});
    discriminate.
Defined.

Lemma flood_fill_space_zero_iff_start_occupied_witness :
  flood_fill_space (5, 5) open_board {[ (5, 5) ]} = Ok 0
  ∧ ((0 = 0 ↔ (5, 5) ∈ ({[ (5, 5) ]} : gset Cell)) ∧ 0 ≤ 0).
Proof.
  assert (H0 : flood_fill_space (5, 5) open_board {[ (5, 5) ]} = Ok 0)
    by (vm_compute; reflexivity).
  split; [exact H0|].
  exact (flood_fill_space_zero_iff_start_occupied (5, 5) open_board _ 0 H0).
Defined.

Lemma flood_fill_space_at_most_board_witness : 63 ≤ 8 * 8.
Proof.
  apply (flood_fill_space_at_most_board (6, 5) open_board {[ (5, 5) ]} 63).
  - simpl. lia.
  - simpl. lia.
  - vm_compute. reflexivity.
Defined.

Lemma flood_fill_space_shrinks_when_blocked_witness : 62 < 63.
Proof.
  apply (flood_fill_space_shrinks_when_blocked (6, 5) (6, 6) open_board
           {[ (5, 5) ]} 63 62).
  - change (reach 8 8 {[ (5, 5) ]} (6, 5) (wrap_cell 8 8 (6, 5) DOWN)).
    apply reach_step.
    + apply reach_start. apply (bool_decide_unpack _). vm_compute. reflexivity.
    + apply (bool_decide_unpack _). vm_compute. reflexivity.
  - vm_compute. reflexivity.
  - vm_compute. reflexivity.
Defined.

Lemma flood_fill_space_order_invariant_witness :
  @flood_fill_space spec_game (6, 5) open_board {[ (5, 5) ]}
  = @flood_fill_space spec_game_reversed (6, 5) open_board {[ (5, 5) ]}.
Proof.
  apply (flood_fill_space_order_invariant spec_game spec_game_reversed).
  reflexivity.
Defined.

(** * Further properties of the checker and the selectors *)

Section SelectorsMore.
Context `{CaseClosedGame}.
Import Agent.

(** X7: a target is not suicidal exactly when it is on no trail and the
    board either reports it empty or cannot be queried; so when the query
    fails the verdict is membership in the trails, whatever the markers. *)
Theorem is_suicidal_false_iff (head target : Cell) (board : Board)
    (occ : gset Cell) :
  is_suicidal head target board occ = false
  ↔ (target ∉ occ)
    ∧ (get_cell_state board target = Some EMPTY
       ∨ get_cell_state board target = None).
Proof.
  unfold is_suicidal.
  destruct (get_cell_state board target) as [s|];
    repeat case_decide; naive_solver.
Qed.

(** The two ways the selector answers on a non-empty list. *)
Lemma choose_result_cases head board occ cands cur :
  cands ≠ [] →
  let r := choose_non_suicidal_move head board occ cands cur in
  (∃ l1 c l2, sort_desc cands = l1 ++ c :: l2
     ∧ Forall (suicidal_candidate head board occ) l1
     ∧ is_suicidal head c.2 board occ = false
     ∧ r = (sort_desc cands, Some c.1.2))
  ∨ (Forall (suicidal_candidate head board occ) cands
     ∧ ∃ c s, sort_desc cands = c :: s ∧ r = (sort_desc cands, Some c.1.2)).
Proof.
  intros Hne r. subst r. unfold choose_non_suicidal_move.
  destruct cands as [|c0 cands']; [done|].
  pose proof (sort_desc_perm (c0 :: cands')) as Hperm.
  destruct (first_non_suicidal head board occ (sort_desc (c0 :: cands')))
    as [d|] eqn:Hfirst.
  - left. apply first_non_suicidal_Some in Hfirst
      as (l1 & c & l2 & Heq & Hl1 & Hc & ->).
    by exists l1, c, l2.
  - right. apply first_non_suicidal_None in Hfirst. split.
    + by rewrite <- Hperm.
    + destruct (sort_desc (c0 :: cands')) as [|c s].
      { by apply Permutation_nil_cons in Hperm. }
      by exists c, s.
Qed.

(** X8: the docstring's guarantee.  When some candidate is not suicidal the
    selector returns the direction of a candidate that is not suicidal and
    whose score is the largest among the candidates that are not. *)
Theorem choose_returns_best_safe (head : Cell) (board : Board)
    (occ : gset Cell) (cands : list Candidate) (cur : Direction)
    (c0 : Candidate) :
  c0 ∈ cands →
  is_suicidal head c0.2 board occ = false →
  ∃ c, c ∈ cands
    ∧ (choose_non_suicidal_move head board occ cands cur).2 = Some c.1.2
    ∧ is_suicidal head c.2 board occ = false
    ∧ ∀ c', c' ∈ cands → is_suicidal head c'.2 board occ = false →
        c'.1.1 ≤ c.1.1.
Proof.
  intros Hin Hsafe.
  assert (Hne : cands ≠ []) by (intros ->; by apply elem_of_nil in Hin).
  pose proof (sort_desc_perm cands) as Hperm.
  pose proof (sort_desc_sorted cands) as Hsorted.
  destruct (choose_result_cases head board occ cands cur Hne)
    as [(l1 & c & l2 & Heq & Hl1 & Hc & ->)|[Hall _]].
  - exists c. split; [|split; [done|split; [done|]]].
    + rewrite <- Hperm, Heq. set_solver.
    + intros c' Hc' Hsafe'. rewrite Heq in Hsorted.
      eapply sorted_first_safe_is_best; [done..| |done].
      by rewrite <- Heq, Hperm.
  - rewrite Forall_forall in Hall. specialize (Hall c0 Hin).
    unfold suicidal_candidate in Hall. congruence.
Qed.

Lemma insert_desc_head c l :
  (∀ c', c' ∈ l → c'.1.1 ≤ c.1.1) → insert_desc c l = c :: l.
Proof.
  intros Hle. destruct l as [|c' l]; simpl; [done|].
  rewrite decide_False; [done|].
  specialize (Hle c' ltac:(apply list_elem_of_here)). lia.
Qed.

Lemma sort_desc_sorted_id l : StronglySorted desc l → sort_desc l = l.
Proof.
  induction 1 as [|c l Hs IH Hall]; simpl; [done|].
  rewrite IH. apply insert_desc_head.
  rewrite Forall_forall in Hall. intros c' Hc'. by apply Hall.
Qed.

(** The selector as one expression. *)
Lemma choose_unfold head board occ cands cur :
  choose_non_suicidal_move head board occ cands cur
  = (sort_desc cands,
     match cands with
     | [] => None
     | _ :: _ =>
         match first_non_suicidal head board occ (sort_desc cands) with
         | Some d => Some d
         | None => (λ c : Candidate, c.1.2) <$> hd_error (sort_desc cands)
         end
     end).
Proof.
  unfold choose_non_suicidal_move. destruct cands as [|c0 cands']; [done|].
  by destruct (first_non_suicidal head board occ (sort_desc (c0 :: cands'))).
Qed.

(** X9: the selector sorts the caller's list in place once and for all:
    called again on the list it left behind it returns the same direction
    and leaves the list as it is. *)
Theorem choose_again_same (head : Cell) (board : Board) (occ : gset Cell)
    (cands : list Candidate) (cur cur' : Direction) :
  let r := choose_non_suicidal_move head board occ cands cur in
  choose_non_suicidal_move head board occ r.1 cur' = r.
Proof.
  intros r. subst r. rewrite !choose_unfold. cbn [fst].
  rewrite (sort_desc_sorted_id _ (sort_desc_sorted cands)).
  f_equal. destruct cands as [|c0 cands']; [done|].
  pose proof (sort_desc_nonempty (c0 :: cands') ltac:(done)) as Hne.
  by destruct (sort_desc (c0 :: cands')).
Qed.

(** X10: ties go to the earlier candidate.  When the first candidate of the
    list is not suicidal and no later one has a larger score, the selector
    returns its direction. *)
Theorem choose_keeps_first_among_equals (head : Cell) (board : Board)
    (occ : gset Cell) (c : Candidate) (rest : list Candidate)
    (cur : Direction) :
  (∀ c', c' ∈ rest → c'.1.1 ≤ c.1.1) →
  is_suicidal head c.2 board occ = false →
  (choose_non_suicidal_move head board occ (c :: rest) cur).2 = Some c.1.2.
Proof.
  intros Hle Hsafe. unfold choose_non_suicidal_move.
  assert (Hs : sort_desc (c :: rest) = c :: sort_desc rest).
  { simpl. apply insert_desc_head. intros c' Hc'. apply Hle.
    by rewrite <- (sort_desc_perm rest). }
  rewrite Hs. simpl. by rewrite Hsafe.
Qed.

Lemma find_none_iff {A} (f : A → bool) (l : list A) :
  find f l = None ↔ ∀ x, x ∈ l → f x = false.
Proof.
  induction l as [|a l IH]; simpl.
  - split; [|done]. intros _ x Hx. by apply elem_of_nil in Hx.
  - destruct (f a) eqn:Hfa.
    + split; [done|]. intros Hall.
      specialize (Hall a ltac:(apply list_elem_of_here)). congruence.
    + rewrite IH. split.
      * intros Hall x [->|Hx]%elem_of_cons; auto.
      * intros Hall x Hx. apply Hall. by apply list_elem_of_further.
Qed.

Lemma find_some_true {A} (f : A → bool) (l : list A) (x : A) :
  find f l = Some x → f x = true.
Proof.
  induction l as [|a l IH]; simpl; [done|].
  destruct (f a) eqn:Hfa; [by intros [= <-] | done].
Qed.

Lemma first_safe_direction_zero (ds : list Direction) (head : Cell)
    (occ : gset Cell) (board : Board) :
  ds ≠ [] → width board = 0 ∨ height board = 0 →
  first_safe_direction ds head occ board = Raise ZeroDivisionError.
Proof.
  intros Hne Hz. destruct ds as [|d ds]; [done|]. simpl.
  unfold wrap_step, pymod.
  destruct (decide (width board = 0)); simpl; [done|].
  destruct (decide (height board = 0)); simpl; [done | tauto].
Qed.

(** On a board with no zero dimension the loop is a [find]. *)
Lemma first_safe_direction_find (ds : list Direction) (head : Cell)
    (occ : gset Cell) (board : Board) :
  width board ≠ 0 → height board ≠ 0 →
  first_safe_direction ds head occ board =
  Ok (find (λ d, negb (is_suicidal head
                         (wrap_cell (width board) (height board) head d)
                         board occ)) ds).
Proof.
  intros Hw Hh. induction ds as [|d ds IH]; [done|].
  cbn [first_safe_direction find]. unfold wrap_step, pymod.
  destruct (decide (width board = 0)); [done|].
  destruct (decide (height board = 0)); [done|].
  simpl. rewrite IH. unfold wrap_cell at 2.
  by destruct (is_suicidal head (_, _) board occ).
Qed.

(** The planner of the fill phase and the call [send_move] makes of it
    agree wherever the query gets as far as the call. *)
Lemma bfs_next_move_on_board_eq (head : Cell) (occ : gset Cell)
    (board : Board) (preferred_dx : Z) :
  width board ≠ 0 → height board ≠ 0 →
  bfs_next_move head occ board preferred_dx
  = Ok (bfs_next_move_on_board head occ board preferred_dx).
Proof.
  intros Hw Hh. unfold bfs_next_move, bfs_next_move_on_board, pymod.
  destruct (decide (width board = 0)); [done|]. cbn [mbind result_bind].
  destruct (is_suicidal head (_, head.2) board occ); cbn [negb]; [|done].
  rewrite !first_safe_direction_find by done. cbn [mbind result_bind].
  by destruct (find _ [UP; DOWN]).
Qed.

Lemma bfs_next_move_on_board_None (head : Cell) (occ : gset Cell)
    (board : Board) (preferred_dx : Z) :
  bfs_next_move_on_board head occ board preferred_dx = None
  ↔ is_suicidal head ((head.1 + preferred_dx) `mod` width board, head.2)
      board occ = true
    ∧ ∀ d, is_suicidal head (wrap_cell (width board) (height board) head d)
             board occ = true.
Proof.
  unfold bfs_next_move_on_board.
  destruct (is_suicidal head (_, head.2) board occ) eqn:Hpref; cbn [negb];
    [|split; [done | by intros [? _]]].
  set (safe := λ d, negb (is_suicidal head
    (wrap_cell (width board) (height board) head d) board occ)).
  destruct (find safe [UP; DOWN]) as [d|] eqn:Hvert.
  - split; [done|]. intros [_ Hall].
    apply find_some_true in Hvert. unfold safe in Hvert.
    rewrite Hall in Hvert. done.
  - rewrite find_none_iff. rewrite find_none_iff in Hvert. split.
    + intros Hall. split; [done|]. intros d.
      destruct (is_suicidal head
        (wrap_cell (width board) (height board) head d) board occ) eqn:Hd;
        [done|].
      assert (Hin : d ∈ [LEFT; RIGHT; UP; DOWN]) by (destruct d; set_solver).
      specialize (Hall d Hin). unfold safe in Hall. by rewrite Hd in Hall.
    + intros [_ Hall] d _. unfold safe. by rewrite Hall.
Qed.

Lemma bfs_next_move_on_board_safe (head : Cell) (occ : gset Cell)
    (board : Board) (preferred_dx : Z) (d : Direction) :
  value RIGHT = (1, 0) → value LEFT = (-1, 0) →
  preferred_dx = 1 ∨ preferred_dx = -1 →
  head.2 `mod` height board = head.2 →
  bfs_next_move_on_board head occ board preferred_dx = Some d →
  is_suicidal head (wrap_cell (width board) (height board) head d)
    board occ = false.
Proof.
  intros Hr Hl Hdx Hrow. unfold bfs_next_move_on_board.
  destruct (is_suicidal head (_, head.2) board occ) eqn:Hpref; cbn [negb].
  - set (safe := λ d, negb (is_suicidal head
      (wrap_cell (width board) (height board) head d) board occ)).
    assert (Hfound : ∀ l, find safe l = Some d →
      is_suicidal head (wrap_cell (width board) (height board) head d)
        board occ = false).
    { intros l Hf%find_some_true. unfold safe in Hf.
      by apply negb_true_iff in Hf. }
    destruct (find safe [UP; DOWN]) as [d'|] eqn:Hvert.
    + intros [= <-]. by eapply Hfound.
    + apply Hfound.
  - intros [= <-]. rewrite <- Hpref. f_equal. unfold wrap_cell.
    destruct Hdx as [-> | ->]; case_decide; try lia;
      rewrite ?Hr, ?Hl; simpl; by rewrite Z.add_0_r, Hrow.
Qed.

(** X11: the fill planner gives up, returning [None], exactly when neither
    dimension of the board is zero and the preferred horizontal cell and
    the wrapped targets of all four directions are suicidal.  It raises
    [ZeroDivisionError] exactly when the width is zero, or the height is
    zero and the preferred horizontal cell is suicidal; it raises nothing
    else. *)
Theorem bfs_next_move_None_iff (head : Cell) (occ : gset Cell)
    (board : Board) (preferred_dx : Z) :
  let preferred := ((head.1 + preferred_dx) `mod` width board, head.2) in
  (bfs_next_move head occ board preferred_dx = Ok None
   ↔ width board ≠ 0 ∧ height board ≠ 0
     ∧ is_suicidal head preferred board occ = true
     ∧ ∀ d, is_suicidal head
              (wrap_cell (width board) (height board) head d) board occ
            = true)
  ∧ (bfs_next_move head occ board preferred_dx = Raise ZeroDivisionError
     ↔ width board = 0
       ∨ (height board = 0 ∧ is_suicidal head preferred board occ = true))
  ∧ (∀ e, bfs_next_move head occ board preferred_dx = Raise e →
          e = ZeroDivisionError)
  ∧ bfs_next_move head occ board preferred_dx ≠ OutOfFuel.
Proof.
  cbv zeta.
  destruct (decide (width board = 0)) as [Hw|Hw].
  { assert (Hr : bfs_next_move head occ board preferred_dx
                 = Raise ZeroDivisionError).
    { unfold bfs_next_move, pymod.
      by destruct (decide (width board = 0)). }
    rewrite Hr.
    repeat split; first [done | naive_solver | by intros e [= <-]]. }
  destruct (decide (height board = 0)) as [Hh|Hh].
  - assert (Hr : bfs_next_move head occ board preferred_dx =
      if is_suicidal head ((head.1 + preferred_dx) `mod` width board, head.2)
           board occ
      then Raise ZeroDivisionError
      else Ok (Some (if decide (preferred_dx > 0) then RIGHT else LEFT))).
    { unfold bfs_next_move, pymod.
      destruct (decide (width board = 0)); [done|]. cbn [mbind result_bind].
      destruct (is_suicidal head (_, head.2) board occ); cbn [negb]; [|done].
      by rewrite !first_safe_direction_zero by first [done | by right]. }
    rewrite Hr.
    destruct (is_suicidal head (_, head.2) board occ);
      repeat split; first [done | naive_solver | by intros e [= <-]].
  - rewrite bfs_next_move_on_board_eq by done.
    split; [|repeat split; first [done | naive_solver]].
    split.
    + intros [= Hn]. by apply bfs_next_move_on_board_None in Hn as [? ?].
    + intros (_ & _ & Hp & Hall). do 2 f_equal.
      by apply bfs_next_move_on_board_None.
Qed.

(** X12: with the unit deltas for LEFT and RIGHT, a preferred step of one
    column and the head's row on the board, the direction the fill planner
    returns never leads to a suicidal cell. *)
Theorem bfs_next_move_safe (head : Cell) (occ : gset Cell) (board : Board)
    (preferred_dx : Z) (d : Direction) :
  value RIGHT = (1, 0) → value LEFT = (-1, 0) →
  preferred_dx = 1 ∨ preferred_dx = -1 →
  head.2 `mod` height board = head.2 →
  bfs_next_move head occ board preferred_dx = Ok (Some d) →
  is_suicidal head (wrap_cell (width board) (height board) head d)
    board occ = false.
Proof.
  intros Hr Hl Hdx Hrow Hm.
  destruct (decide (width board = 0)) as [Hw|Hw].
  { unfold bfs_next_move, pymod in Hm.
    by destruct (decide (width board = 0)). }
  destruct (decide (height board = 0)) as [Hh|Hh].
  - unfold bfs_next_move, pymod in Hm.
    destruct (decide (width board = 0)); [done|].
    cbn [mbind result_bind] in Hm.
    destruct (is_suicidal head (_, head.2) board occ) eqn:Hpref;
      cbn [negb] in Hm.
    + by rewrite !first_safe_direction_zero in Hm
        by first [done | by right].
    + injection Hm as <-. rewrite <- Hpref. f_equal. unfold wrap_cell.
      destruct Hdx as [-> | ->]; case_decide; try lia;
        rewrite ?Hr, ?Hl; simpl; by rewrite Z.add_0_r, Hrow.
  - rewrite bfs_next_move_on_board_eq in Hm by done. injection Hm as Hm.
    by eapply bfs_next_move_on_board_safe.
Qed.

End SelectorsMore.

Lemma choose_returns_best_safe_witness :
  ∃ c : Agent.Candidate,
    c ∈ [(5, UP, (1, 0)); (9, DOWN, (1, 2)); (3, RIGHT, (2, 1))]
    ∧ (Agent.choose_non_suicidal_move (1, 1)
         (mkBoard 3 3 [[0; 1; 0]; [0; 1; 0]; [0; 1; 0]])
         {[ (1, 0); (1, 1); (1, 2) ]}
         [(5, UP, (1, 0)); (9, DOWN, (1, 2)); (3, RIGHT, (2, 1))] RIGHT).2
      = Some c.1.2
    ∧ Agent.is_suicidal (1, 1) c.2
        (mkBoard 3 3 [[0; 1; 0]; [0; 1; 0]; [0; 1; 0]])
        {[ (1, 0); (1, 1); (1, 2) ]} = false
    ∧ ∀ c' : Agent.Candidate,
        c' ∈ [(5, UP, (1, 0)); (9, DOWN, (1, 2)); (3, RIGHT, (2, 1))] →
        Agent.is_suicidal (1, 1) c'.2
          (mkBoard 3 3 [[0; 1; 0]; [0; 1; 0]; [0; 1; 0]])
          {[ (1, 0); (1, 1); (1, 2) ]} = false →
        c'.1.1 ≤ c.1.1.
Proof.
  apply (choose_returns_best_safe (1, 1)
           (mkBoard 3 3 [[0; 1; 0]; [0; 1; 0]; [0; 1; 0]])
           {[ (1, 0); (1, 1); (1, 2) ]}
           [(5, UP, (1, 0)); (9, DOWN, (1, 2)); (3, RIGHT, (2, 1))] RIGHT
           (3, RIGHT, (2, 1))).
  - set_solver.
  - vm_compute. reflexivity.
Defined.

Lemma choose_keeps_first_among_equals_witness :
  (Agent.choose_non_suicidal_move (1, 1) (mkBoard 3 3 [])
     ∅ [(4, DOWN, (1, 2)); (4, UP, (1, 0)); (2, RIGHT, (2, 1))] RIGHT).2
  = Some DOWN.
Proof.
  apply (choose_keeps_first_among_equals (1, 1) (mkBoard 3 3 []) ∅
           (4, DOWN, (1, 2)) [(4, UP, (1, 0)); (2, RIGHT, (2, 1))] RIGHT).
  - intros c' Hc'. repeat (apply elem_of_cons in Hc' as [->|Hc']); simpl;
      try lia. by apply elem_of_nil in Hc'.
  - vm_compute. reflexivity.
Defined.

Lemma bfs_next_move_safe_witness :
  Agent.bfs_next_move (1, 1) {[ (1, 0); (1, 1); (1, 2) ]}
    (mkBoard 3 3 [[0; 1; 0]; [0; 1; 0]; [0; 1; 0]]) 1 = Ok (Some RIGHT)
  ∧ Agent.is_suicidal (1, 1) (wrap_cell 3 3 (1, 1) RIGHT)
      (mkBoard 3 3 [[0; 1; 0]; [0; 1; 0]; [0; 1; 0]])
      {[ (1, 0); (1, 1); (1, 2) ]} = false.
Proof.
  assert (Hm : Agent.bfs_next_move (1, 1) {[ (1, 0); (1, 1); (1, 2) ]}
    (mkBoard 3 3 [[0; 1; 0]; [0; 1; 0]; [0; 1; 0]]) 1 = Ok (Some RIGHT))
    by (vm_compute; reflexivity).
  split; [exact Hm|].
  apply (bfs_next_move_safe (1, 1) {[ (1, 0); (1, 1); (1, 2) ]}
           (mkBoard 3 3 [[0; 1; 0]; [0; 1; 0]; [0; 1; 0]]) 1 RIGHT);
    [reflexivity | reflexivity | by left | reflexivity | exact Hm].
Defined.

(** * Further properties of the phased agent's query *)

Section QueryMore.
Context `{CaseClosedGame}.
Import Agent.

(** The answer of a query, by the outcome of reading the scene. *)
Lemma send_move_answer pn st :
  (send_move pn st).2 =
  match read_scene (my_agent_of pn (GLOBAL_GAME (globals st)))
          (opponent_of pn (GLOBAL_GAME (globals st)))
          (board (GLOBAL_GAME (globals st))) with
  | Ok sc =>
      match sc_move_options sc with
      | [] => Ok (direction (my_agent_of pn (GLOBAL_GAME (globals st))))
      | _ :: _ =>
          (phased_decision (phase_of st) (escape_dx_of st) (sc_head sc)
             (sc_opp_head sc) (sc_corridor_y sc) (sc_exit_x sc)
             (board (GLOBAL_GAME (globals st))) (sc_occupied_trails sc)
             (sc_move_options sc)
             (direction (my_agent_of pn (GLOBAL_GAME (globals st))))).2
      end
  | Raise e => Raise e
  | OutOfFuel => OutOfFuel
  end.
Proof.
  unfold send_move, phase_of, escape_dx_of.
  destruct (default (floodfill, 0) (send_move_attrs st)) as [ph dx].
  destruct (read_scene _ _ _) as [sc| |]; simpl; try done.
  destruct (sc_move_options sc) as [|c mo]; simpl; [done|].
  by destruct (phased_decision _ _ _ _ _ _ _ _ _ _) as [[p d] a].
Qed.

(** The escape bias a query leaves behind. *)
Lemma send_move_escape_dx pn st :
  escape_dx_of (send_move pn st).1 =
  match read_scene (my_agent_of pn (GLOBAL_GAME (globals st)))
          (opponent_of pn (GLOBAL_GAME (globals st)))
          (board (GLOBAL_GAME (globals st))) with
  | Ok sc =>
      match sc_move_options sc with
      | [] => escape_dx_of st
      | _ :: _ =>
          (phased_decision (phase_of st) (escape_dx_of st) (sc_head sc)
             (sc_opp_head sc) (sc_corridor_y sc) (sc_exit_x sc)
             (board (GLOBAL_GAME (globals st))) (sc_occupied_trails sc)
             (sc_move_options sc)
             (direction (my_agent_of pn (GLOBAL_GAME (globals st))))).1.2
      end
  | _ => escape_dx_of st
  end.
Proof.
  unfold send_move, phase_of, escape_dx_of.
  destruct (default (floodfill, 0) (send_move_attrs st)) as [ph dx].
  destruct (read_scene _ _ _) as [sc| |]; simpl; try done.
  destruct (sc_move_options sc) as [|c mo]; simpl; [done|].
  by destruct (phased_decision _ _ _ _ _ _ _ _ _ _) as [[p d] a].
Qed.

(** What the scene holds of the candidate loop and of the trails. *)
Lemma read_scene_options my opp bd sc :
  read_scene my opp bd = Ok sc →
  sc_occupied_trails sc = list_to_set (trail my) ∪ list_to_set (trail opp)
  ∧ move_options_loop (non_reversing (direction my)) (sc_head sc) bd
      (sc_occupied_trails sc
       ∪ sneaky_corridor (width bd) (sc_corridor_y sc)) []
    = Ok (sc_move_options sc).
Proof.
  unfold read_scene.
  destruct (last (trail my)) as [head|]; simpl; [|done].
  destruct (opp_head_of opp) as [oh| |]; simpl; try done.
  destruct (hd_error (trail my)) as [start|]; simpl; [|done].
  destruct (pymod _ (height bd)) as [cy| |]; simpl; try done.
  destruct (move_options_loop _ _ _ _ _) as [mo| |] eqn:Hmo;
    simpl; try done.
  by intros [= <-].
Qed.

(** Every candidate of a scene pairs a non-reversing direction with its
    wrapped target and the fill count from that target. *)
Lemma read_scene_candidates my opp bd sc c :
  read_scene my opp bd = Ok sc → c ∈ sc_move_options sc →
  value c.1.2 ≠ neg_delta (value (direction my))
  ∧ c.2 = wrap_cell (width bd) (height bd) (sc_head sc) c.1.2
  ∧ c.2 ≠ sc_head sc
  ∧ width bd ≠ 0 ∧ height bd ≠ 0
  ∧ flood_fill_space c.2 bd
      (sc_occupied_trails sc ∪ sneaky_corridor (width bd) (sc_corridor_y sc))
    = Ok c.1.1.
Proof.
  intros Hsc Hc. apply read_scene_options in Hsc as [_ Hloop].
  revert c Hc. apply Forall_forall.
  assert (Hgen : ∀ ds acc res,
    move_options_loop ds (sc_head sc) bd
      (sc_occupied_trails sc ∪ sneaky_corridor (width bd) (sc_corridor_y sc))
      acc = Ok res →
    (∀ d, d ∈ ds → value d ≠ neg_delta (value (direction my))) →
    ∀ P : Candidate → Prop,
    (∀ c : Candidate,
       value c.1.2 ≠ neg_delta (value (direction my)) →
       c.2 = wrap_cell (width bd) (height bd) (sc_head sc) c.1.2 →
       c.2 ≠ sc_head sc → width bd ≠ 0 → height bd ≠ 0 →
       flood_fill_space c.2 bd
         (sc_occupied_trails sc
          ∪ sneaky_corridor (width bd) (sc_corridor_y sc)) = Ok c.1.1 →
       P c) →
    Forall P acc → Forall P res).
  { induction ds as [|d ds IH]; intros acc res; simpl.
    - by intros [= <-].
    - destruct (wrap_step _ _ (sc_head sc) d) as [n| |] eqn:Hn; simpl;
        try done.
      apply wrap_step_Ok in Hn as (Hw & Hh & ->).
      case_decide as Hhead.
      + intros Hres Hds P HP Hacc. eapply IH; [done| |done|done].
        intros d' Hd'. apply Hds. by apply list_elem_of_further.
      + destruct (flood_fill_space _ bd _) as [sp| |] eqn:Hsp; simpl;
          try done.
        intros Hres Hds P HP Hacc. eapply IH; [done| |done|].
        * intros d' Hd'. apply Hds. by apply list_elem_of_further.
        * apply Forall_app. split; [done|]. constructor; [|constructor].
          apply HP; simpl; try done. apply Hds, list_elem_of_here. }
  eapply Hgen; [exact Hloop| | |constructor].
  - intros d Hd. by apply non_reversing_spec in Hd.
  - intros c ? ? ? ? ? ?. done.
Qed.

(** A checked proposal is either taken, and then not suicidal, or replaced
    by the selector's choice. *)
Lemma checked_or_choose_cases proposal head board occ mo cur :
  let r := checked_or_choose proposal head board occ mo cur in
  (∃ d, r = (mo, Some d)
        ∧ is_suicidal head (wrap_cell (width board) (height board) head d)
            board occ = false)
  ∨ r = choose_non_suicidal_move head board occ mo cur.
Proof.
  unfold checked_or_choose. destruct proposal as [d|]; [|by right].
  destruct (is_suicidal _ _ _ _) eqn:Hd; simpl; [by right|].
  left. by exists d.
Qed.

Lemma decide_by_phase_cases phase dx head cy ex board occ mo cur :
  let r := (decide_by_phase phase dx head cy ex board occ mo cur).2 in
  (∃ d, r = (mo, Some d)
        ∧ is_suicidal head (wrap_cell (width board) (height board) head d)
            board occ = false)
  ∨ r = choose_non_suicidal_move head board occ mo cur.
Proof.
  destruct phase; simpl.
  - by right.
  - destruct (panic_tentative dx head cy ex) as [[p e] t]. simpl.
    apply checked_or_choose_cases.
  - apply checked_or_choose_cases.
Qed.

(** The answer of the decision is the direction the phase settled on. *)
Lemma phased_decision_chosen phase dx head oh cy ex board occ mo cur d :
  mo ≠ [] →
  (phased_decision phase dx head oh cy ex board occ mo cur).2 = Ok d →
  (decide_by_phase
     (infiltration_check (panic_trigger phase (horiz_sep head oh))
        head oh cy ex)
     dx head cy ex board occ mo cur).2.2 = Some d.
Proof.
  intros Hne. unfold phased_decision.
  match goal with
  | |- context [decide_by_phase ?p ?e ?hd ?y ?x ?b ?o ?m ?c] =>
      destruct (decide_by_phase_Some p e hd y x b o m c Hne) as [d' Hd'];
      destruct (decide_by_phase p e hd y x b o m c) as [[p' e'] [mo' ch]]
  end.
  simpl in *. subst ch. by intros [= <-].
Qed.

(** X13: a query answers with a direction whose target is suicidal only as
    a last resort, when every candidate's target is suicidal. *)
Theorem send_move_suicidal_only_as_last_resort (pn : Z) (st : State)
    (sc : Scene) (d : Direction) :
  let gm := GLOBAL_GAME (globals st) in
  read_scene (my_agent_of pn gm) (opponent_of pn gm) (board gm) = Ok sc →
  sc_move_options sc ≠ [] →
  (send_move pn st).2 = Ok d →
  is_suicidal (sc_head sc)
    (wrap_cell (width (board gm)) (height (board gm)) (sc_head sc) d)
    (board gm) (sc_occupied_trails sc) = true →
  Forall (suicidal_candidate (sc_head sc) (board gm) (sc_occupied_trails sc))
    (sc_move_options sc).
Proof.
  intros gm Hsc Hne Hans Hsui.
  rewrite send_move_answer in Hans. fold gm in Hans. rewrite Hsc in Hans.
  destruct (sc_move_options sc) as [|c0 mo] eqn:Hmo; [done|].
  rewrite <- Hmo in *.
  apply phased_decision_chosen in Hans; [|done].
  match type of Hans with
  | (decide_by_phase ?p ?e ?hd ?y ?x ?b ?o ?m ?c).2.2 = _ =>
      destruct (decide_by_phase_cases p e hd y x b o m c)
        as [(d' & Hr & Hsafe)|Hr]; rewrite Hr in Hans
  end.
  - simpl in Hans. injection Hans as ->. congruence.
  - destruct (choose_result_cases (sc_head sc) (board gm)
                (sc_occupied_trails sc) (sc_move_options sc)
                (direction (my_agent_of pn gm)) Hne)
      as [(l1 & c & l2 & Heq & _ & Hc & Hch)|[Hall _]]; [|done].
    rewrite Hch in Hans. simpl in Hans. injection Hans as <-.
    assert (Hin : c ∈ sc_move_options sc).
    { rewrite <- (sort_desc_perm (sc_move_options sc)), Heq. set_solver. }
    destruct (read_scene_candidates _ _ _ _ c Hsc Hin) as (_ & Htgt & _).
    rewrite <- Htgt in Hsui. congruence.
Qed.

(** X14: a query is read-only on the game: it leaves the game and the last
    posted payload as they are, and afterwards the two attributes are set. *)
Theorem send_move_keeps_game (pn : Z) (st : State) :
  globals (send_move pn st).1 = globals st
  ∧ send_move_attrs (send_move pn st).1
    = Some (phase_of (send_move pn st).1, escape_dx_of (send_move pn st).1).
Proof.
  split; [apply send_move_globals|].
  unfold send_move, phase_of, escape_dx_of.
  destruct (default (floodfill, 0) (send_move_attrs st)) as [ph dx].
  destruct (read_scene _ _ _) as [sc| |]; simpl; try done.
  destruct (sc_move_options sc); simpl; [done|].
  by destruct (phased_decision _ _ _ _ _ _ _ _ _ _) as [[p d] a].
Qed.

End QueryMore.

Section QueryOutcome.
Context `{CaseClosedGame}.
Import Agent.

Lemma non_reversing_nonempty cur : non_reversing cur ≠ [].
Proof.
  intros Hnil.
  assert (Hno : ∀ d, d ∉ non_reversing cur).
  { intros d. rewrite Hnil. apply not_elem_of_nil. }
  destruct (decide (value cur = neg_delta (value cur))) as [Heq|Hne].
  - destruct (decide (cur = UP)) as [Hup|Hup].
    + apply (Hno DOWN), non_reversing_spec. rewrite <- Heq. intros Hv.
      apply value_inj in Hv. congruence.
    + apply (Hno UP), non_reversing_spec. rewrite <- Heq. intros Hv.
      apply value_inj in Hv. congruence.
  - by apply (Hno cur), non_reversing_spec.
Qed.

Lemma move_options_loop_zero ds head board blocked acc :
  ds ≠ [] → width board = 0 ∨ height board = 0 →
  move_options_loop ds head board blocked acc = Raise ZeroDivisionError.
Proof.
  intros Hds Hz. destruct ds as [|d ds]; [done|]. simpl.
  by rewrite wrap_step_zero.
Qed.

(** The three ways reading the scene ends. *)
Lemma read_scene_outcome my opp bd :
  (¬ trails_ok my opp → read_scene my opp bd = Raise IndexError)
  ∧ (trails_ok my opp → width bd = 0 ∨ height bd = 0 →
     read_scene my opp bd = Raise ZeroDivisionError)
  ∧ (trails_ok my opp → width bd ≠ 0 → height bd ≠ 0 →
     ∃ sc, read_scene my opp bd = Ok sc).
Proof.
  unfold trails_ok. split; [|split].
  - intros Hbad. unfold read_scene, opp_head_of.
    destruct (trail my) as [|c t] eqn:Hmy; [done|].
    destruct (last (c :: t)) as [hd|] eqn:Hlast;
      [|by apply last_None in Hlast]. simpl.
    destruct (alive opp); [|by destruct Hbad].
    destruct (trail opp) as [|c' t']; [done|]. by destruct Hbad.
  - intros [Hmy Hopp] Hz. unfold read_scene, opp_head_of.
    destruct (last (trail my)) as [hd|] eqn:Hlast;
      [|by apply last_None in Hlast]. simpl.
    assert (Hoh : ∃ oh, (if alive opp
        then h ← opt_get (last (trail opp)) IndexError; Ok (Some h)
        else Ok None) = Ok oh).
    { destruct (alive opp); [|by eexists].
      destruct (last (trail opp)) as [oh|] eqn:Hl; [by eexists|].
      apply last_None in Hl. by destruct Hopp. }
    destruct Hoh as [oh ->]. simpl.
    destruct (trail my) as [|start t] eqn:Ht; [done|]. simpl.
    unfold pymod. case_decide as Hh; [done|]. simpl.
    rewrite move_options_loop_zero; [done|apply non_reversing_nonempty|].
    destruct Hz; [by left | done].
  - intros [Hmy Hopp] Hw Hh. by apply read_scene_Ok.
Qed.

(** X15: how a query ends.  It raises [IndexError] exactly when a trail it
    indexes is empty (its own, or that of a living opponent), raises
    [ZeroDivisionError] exactly when the trails are fine and a dimension of
    the board is zero, and answers with a direction in every other state;
    it raises nothing else and never runs out of fuel. *)
Theorem send_move_outcome (pn : Z) (st : State) :
  let gm := GLOBAL_GAME (globals st) in
  let my := my_agent_of pn gm in
  let opp := opponent_of pn gm in
  ((send_move pn st).2 = Raise IndexError
   ↔ trail my = [] ∨ (alive opp = true ∧ trail opp = []))
  ∧ ((send_move pn st).2 = Raise ZeroDivisionError
     ↔ trails_ok my opp ∧ (width (board gm) = 0 ∨ height (board gm) = 0))
  ∧ ((∃ d, (send_move pn st).2 = Ok d)
     ↔ trails_ok my opp ∧ width (board gm) ≠ 0 ∧ height (board gm) ≠ 0)
  ∧ (send_move pn st).2 ≠ Raise UnboundLocalError
  ∧ (send_move pn st).2 ≠ OutOfFuel.
Proof.
  intros gm my opp. rewrite send_move_answer. fold gm my opp.
  destruct (read_scene_outcome my opp (board gm)) as (Hbad & Hzero & Hok).
  assert (Hbad_iff : ¬ trails_ok my opp
                     ↔ trail my = [] ∨ (alive opp = true ∧ trail opp = [])).
  { unfold trails_ok. destruct (trail my), (alive opp), (trail opp);
      naive_solver. }
  destruct (decide (trails_ok my opp)) as [Hgood|Hnot].
  - destruct (decide (width (board gm) = 0 ∨ height (board gm) = 0))
      as [Hz|Hnz].
    + rewrite (Hzero Hgood Hz). repeat split; try done; naive_solver.
    + destruct (Hok Hgood) as [sc Hsc]; [tauto..|]. rewrite Hsc.
      assert (Hans : ∃ d,
        match sc_move_options sc with
        | [] => Ok (direction my)
        | _ :: _ =>
            (phased_decision (phase_of st) (escape_dx_of st) (sc_head sc)
               (sc_opp_head sc) (sc_corridor_y sc) (sc_exit_x sc) (board gm)
               (sc_occupied_trails sc) (sc_move_options sc)
               (direction my)).2
        end = Ok d).
      { destruct (sc_move_options sc) as [|c mo] eqn:Hmo; [by eexists|].
        rewrite <- Hmo. apply phased_decision_answers. by rewrite Hmo. }
      destruct Hans as [d Hd]. rewrite Hd.
      repeat split; try done; try naive_solver.
  - rewrite (Hbad Hnot). repeat split; try done; try naive_solver.
Qed.

(** X16: a query that starts in floodfill leaves it only when it has
    candidates and sees a living opponent whose head column differs from
    its own by at most one; with a dead opponent it stays in floodfill. *)
Theorem floodfill_left_only_near_opponent (pn : Z) (st : State) :
  let gm := GLOBAL_GAME (globals st) in
  phase_of st = floodfill →
  phase_of (send_move pn st).1 ≠ floodfill →
  ∃ sc oh,
    read_scene (my_agent_of pn gm) (opponent_of pn gm) (board gm) = Ok sc
    ∧ sc_move_options sc ≠ []
    ∧ alive (opponent_of pn gm) = true
    ∧ last (trail (opponent_of pn gm)) = Some oh
    ∧ Z.abs ((sc_head sc).1 - oh.1) ≤ 1.
Proof.
  intros gm Hph. rewrite send_move_phase. fold gm.
  destruct (read_scene _ _ _) as [sc| |] eqn:Hsc; [|done..].
  destruct (sc_move_options sc) as [|c mo] eqn:Hmo; [done|].
  intros Hleft. apply read_scene_fields in Hsc as (_ & Hoh & _).
  unfold phase_after, infiltration_check, corridor_blocked, panic_trigger,
    horiz_sep in Hleft. rewrite Hph in Hleft.
  destruct (sc_opp_head sc) as [oh|] eqn:Hopp; [|done].
  exists sc, oh. split; [done|]. split; [by rewrite Hmo|].
  destruct (alive (opponent_of pn gm)); [|done].
  split; [done|]. split; [done|].
  unfold PANIC_THRESHOLD in Hleft.
  destruct (decide (floodfill = floodfill ∧ Z.abs ((sc_head sc).1 - oh.1) ≤ 1))
    as [[_ ?]|Hno]; [done|].
  rewrite decide_False in Hleft by done. done.
Qed.

(** X17: in post_corridor_fill a query changes nothing in the state. *)
Theorem post_corridor_fill_query_changes_nothing (pn : Z) (st : State) :
  phase_of st = post_corridor_fill → (send_move pn st).1 = st.
Proof.
  intros Hph. destruct st as [gl attrs]. unfold phase_of in Hph.
  simpl in Hph. destruct attrs as [[ph dx]|]; [|done].
  simpl in Hph. subst ph. unfold send_move. simpl.
  destruct (read_scene _ _ _) as [sc| |]; simpl; try done.
  destruct (sc_move_options sc) as [|c mo]; simpl; [done|].
  unfold phased_decision.
  assert (Htrig : ∀ sep, panic_trigger post_corridor_fill sep
                         = post_corridor_fill).
  { intros [s|]; simpl; [|done]. first [done | case_decide; naive_solver]. }
  rewrite Htrig.
  assert (Hinf : ∀ hd oh cy ex,
    infiltration_check post_corridor_fill hd oh cy ex = post_corridor_fill).
  { intros. unfold infiltration_check.
    by destruct (corridor_blocked _ _ _ _ _). }
  rewrite Hinf. simpl.
  by destruct (checked_or_choose _ _ _ _ _ _) as [mo' [ch|]].
Qed.

End QueryOutcome.

Section QueryPhases.
Context `{CaseClosedGame}.
Import Agent.

Lemma decide_by_phase_escape phase dx head cy ex board occ mo cur :
  (decide_by_phase phase dx head cy ex board occ mo cur).1.2 =
  if decide (phase = panic ∧ head.2 = cy ∧ head.1 ≠ ex)
  then (if decide (head.1 < ex) then 1 else -1)
  else dx.
Proof.
  destruct phase; simpl.
  - first [done | by rewrite decide_False by naive_solver].
  - unfold panic_tentative. repeat case_decide; simpl; try done; naive_solver.
  - first [done | by rewrite decide_False by naive_solver].
Qed.

Lemma phased_decision_escape phase dx head oh cy ex board occ mo cur :
  (phased_decision phase dx head oh cy ex board occ mo cur).1.2 =
  (decide_by_phase
     (infiltration_check (panic_trigger phase (horiz_sep head oh))
        head oh cy ex)
     dx head cy ex board occ mo cur).1.2.
Proof.
  unfold phased_decision.
  destruct (decide_by_phase _ _ _ _ _ _ _ _ _) as [[p d] [m [c|]]]; done.
Qed.

(** On the safe row nothing counts as infiltration. *)
Lemma infiltration_check_on_row phase head oh cy ex :
  head.2 = cy → infiltration_check phase head oh cy ex = phase.
Proof.
  intros Hrow. unfold infiltration_check, corridor_blocked.
  destruct oh as [o|]; [|done]. repeat case_decide; naive_solver.
Qed.

(** X19: the escape bias is written in one situation only: a query that is
    in panic at the decision, on the safe row and not yet on the exit
    column records the sign of the step toward the exit column; every other
    query leaves the bias as it was. *)
Theorem escape_bias_recorded (pn : Z) (st : State) (sc : Scene) :
  let gm := GLOBAL_GAME (globals st) in
  let head := sc_head sc in
  read_scene (my_agent_of pn gm) (opponent_of pn gm) (board gm) = Ok sc →
  sc_move_options sc ≠ [] →
  escape_dx_of (send_move pn st).1 =
  if decide (panic_trigger (phase_of st) (horiz_sep head (sc_opp_head sc))
             = panic
             ∧ head.2 = sc_corridor_y sc ∧ head.1 ≠ sc_exit_x sc)
  then (if decide (head.1 < sc_exit_x sc) then 1 else -1)
  else escape_dx_of st.
Proof.
  intros gm head Hsc Hne. rewrite send_move_escape_dx. fold gm.
  rewrite Hsc. destruct (sc_move_options sc) as [|c mo] eqn:Hmo; [done|].
  rewrite phased_decision_escape, decide_by_phase_escape. fold head.
  destruct (decide (head.2 = sc_corridor_y sc)) as [Hrow|Hoff].
  - rewrite infiltration_check_on_row by done.
    repeat case_decide; try done; naive_solver.
  - rewrite !decide_False by naive_solver. done.
Qed.

(** The bias is a sign, and it is neutral while the phase is floodfill. *)
Lemma escape_inv_send_move pn st :
  (escape_dx_of st = -1 ∨ escape_dx_of st = 0 ∨ escape_dx_of st = 1) →
  (phase_of st = floodfill → escape_dx_of st = 0) →
  (escape_dx_of (send_move pn st).1 = -1
   ∨ escape_dx_of (send_move pn st).1 = 0
   ∨ escape_dx_of (send_move pn st).1 = 1)
  ∧ (phase_of (send_move pn st).1 = floodfill →
     escape_dx_of (send_move pn st).1 = 0).
Proof.
  intros Hrange Hneutral. rewrite send_move_phase, send_move_escape_dx.
  destruct (read_scene _ _ _) as [sc| |]; [|done..].
  destruct (sc_move_options sc) as [|c mo]; [done|].
  rewrite phased_decision_escape, decide_by_phase_escape.
  unfold phase_after.
  set (p2 := infiltration_check _ _ _ _ _).
  assert (Hp2 : p2 = floodfill → phase_of st = floodfill).
  { unfold p2, infiltration_check, panic_trigger.
    destruct (corridor_blocked _ _ _ _ _); [done|].
    destruct (horiz_sep _ _); [|done]. by case_decide. }
  split.
  - repeat case_decide; naive_solver.
  - destruct p2 eqn:Hp.
    + intros _. rewrite decide_False by naive_solver. auto.
    + by case_decide.
    + done.
Qed.

(** X18: from a fresh process, whatever queries, state syncs and match ends
    arrive, the escape bias is -1, 0 or 1, and it is 0 whenever the phase is
    floodfill. *)
Theorem escape_bias_invariant (gl : Globals) (events : list Event) :
  let st := foldl handle (mkState gl None) events in
  (escape_dx_of st = -1 ∨ escape_dx_of st = 0 ∨ escape_dx_of st = 1)
  ∧ (phase_of st = floodfill → escape_dx_of st = 0).
Proof.
  cbv zeta.
  assert (Hgen : ∀ st,
    (escape_dx_of st = -1 ∨ escape_dx_of st = 0 ∨ escape_dx_of st = 1) →
    (phase_of st = floodfill → escape_dx_of st = 0) →
    (escape_dx_of (foldl handle st events) = -1
     ∨ escape_dx_of (foldl handle st events) = 0
     ∨ escape_dx_of (foldl handle st events) = 1)
    ∧ (phase_of (foldl handle st events) = floodfill →
       escape_dx_of (foldl handle st events) = 0)).
  { induction events as [|ev evs IH]; intros st Hrange Hneutral; [done|].
    simpl. destruct ev as [[pn|body]|body]; simpl.
    - destruct (escape_inv_send_move pn st Hrange Hneutral). by apply IH.
    - apply IH; unfold escape_dx_of, phase_of in *;
        by rewrite receive_state_attrs.
    - destruct (end_game_cases body st) as [(_ & _ & Hat)|(_ & _ & Hat)];
        apply IH; unfold escape_dx_of, phase_of in *; rewrite Hat;
        simpl; auto. }
  apply Hgen; unfold escape_dx_of, phase_of; simpl; auto.
Qed.

(** With no candidate, every direction the query tried wraps onto the
    head. *)
Lemma move_options_loop_empty ds head board blocked acc :
  move_options_loop ds head board blocked acc = Ok [] →
  acc = []
  ∧ ∀ d, d ∈ ds → wrap_cell (width board) (height board) head d = head.
Proof.
  revert acc. induction ds as [|d ds IH]; intros acc; simpl.
  - intros [= ->]. split; [done|]. intros d Hd. by apply elem_of_nil in Hd.
  - destruct (wrap_step (width board) (height board) head d) as [n| |]
      eqn:Hn; simpl; try done.
    apply wrap_step_Ok in Hn as (_ & _ & ->).
    case_decide as Hhead.
    + intros [-> Hall]%IH. split; [done|].
      intros d' [->|Hd']%elem_of_cons; auto.
    + destruct (flood_fill_space _ _ _) as [space| |]; simpl; try done.
      intros [Hacc _]%IH. by destruct acc.
Qed.

(** X20: a query that has candidates and ends in floodfill answers with the
    direction of one of its candidates, hence never with the reverse of the
    heading and never with a step onto its own head.  A query that has no
    candidate answers with the agent's heading and leaves the phase as it
    was; every direction it tried wraps onto the head, so unless the
    heading is its own reverse the answer is a step onto the agent's own
    head. *)
Theorem floodfill_answer_is_candidate (pn : Z) (st : State) (sc : Scene)
    (d : Direction) :
  let gm := GLOBAL_GAME (globals st) in
  let my := my_agent_of pn gm in
  read_scene my (opponent_of pn gm) (board gm) = Ok sc →
  (send_move pn st).2 = Ok d →
  (sc_move_options sc ≠ [] →
   phase_of (send_move pn st).1 = floodfill →
   (∃ c, c ∈ sc_move_options sc ∧ c.1.2 = d)
   ∧ value d ≠ neg_delta (value (direction my))
   ∧ wrap_cell (width (board gm)) (height (board gm)) (sc_head sc) d
     ≠ sc_head sc)
  ∧ (sc_move_options sc = [] →
     d = direction my
     ∧ phase_of (send_move pn st).1 = phase_of st
     ∧ (value d ≠ neg_delta (value d) →
        wrap_cell (width (board gm)) (height (board gm)) (sc_head sc) d
        = sc_head sc)).
Proof.
  intros gm my Hsc Hans. split.
  - intros Hne Hph.
    rewrite send_move_phase in Hph. rewrite send_move_answer in Hans.
    fold gm my in Hph, Hans. rewrite Hsc in Hph, Hans.
    destruct (sc_move_options sc) as [|c0 mo] eqn:Hmo; [done|].
    rewrite <- Hmo in *.
    apply phased_decision_chosen in Hans; [|done].
    unfold phase_after in Hph.
    set (p2 := infiltration_check _ _ _ _ _) in *.
    assert (Hp2 : p2 = floodfill).
    { destruct p2; [done| |done]. by case_decide. }
    rewrite Hp2 in Hans. simpl in Hans.
    assert (Hc : ∃ c, c ∈ sc_move_options sc ∧ c.1.2 = d).
    { destruct (choose_result_cases (sc_head sc) (board gm)
                  (sc_occupied_trails sc) (sc_move_options sc)
                  (direction my) Hne)
        as [(l1 & c & l2 & Heq & _ & _ & Hch)|[_ (c & s & Heq & Hch)]];
        rewrite Hch in Hans; simpl in Hans; injection Hans as <-;
        exists c; (split; [|done]);
        rewrite <- (sort_desc_perm (sc_move_options sc)), Heq; set_solver. }
    split; [done|]. destruct Hc as (c & Hin & <-).
    destruct (read_scene_candidates _ _ _ _ c Hsc Hin)
      as (Hrev & Htgt & Hhead & _).
    split; [done|]. by rewrite <- Htgt.
  - intros Hnone.
    rewrite send_move_phase. rewrite send_move_answer in Hans.
    fold gm my in Hans |- *. rewrite Hsc in Hans |- *.
    rewrite Hnone in Hans |- *. injection Hans as <-.
    split; [done|]. split; [done|]. intros Hself.
    destruct (read_scene_options _ _ _ _ Hsc) as [_ Hloop].
    rewrite Hnone in Hloop.
    apply move_options_loop_empty in Hloop as [_ Hall].
    apply Hall. by apply non_reversing_spec.
Qed.

Lemma elem_of_sneaky_corridor (w cy : Z) (c : Cell) :
  c ∈ sneaky_corridor w cy ↔ c.2 = cy ∧ 0 ≤ c.1 < w.
Proof.
  unfold sneaky_corridor. rewrite elem_of_list_to_set, list_elem_of_fmap.
  split.
  - intros (x & -> & Hx%elem_of_seqZ). simpl. split; [done|].
    rewrite Z.mod_small by lia. lia.
  - intros [Hy Hx]. exists c.1. split; [|apply elem_of_seqZ; lia].
    rewrite Z.mod_small by lia. destruct c; simpl in *. by subst.
Qed.

(** X21: the score of a candidate is the fill count from its target with
    both trails and the whole safe row blocked; on a board of positive
    width it is 0 exactly when the target is on a trail or on the safe
    row. *)
Theorem move_options_scores (my opp : Agent) (bd : Board) (sc : Scene)
    (c : Candidate) :
  0 < width bd →
  read_scene my opp bd = Ok sc →
  c ∈ sc_move_options sc →
  flood_fill_space c.2 bd
    (list_to_set (trail my) ∪ list_to_set (trail opp)
     ∪ sneaky_corridor (width bd) (sc_corridor_y sc)) = Ok c.1.1
  ∧ (c.1.1 = 0
     ↔ c.2 ∈ trail my ∨ c.2 ∈ trail opp ∨ c.2.2 = sc_corridor_y sc).
Proof.
  intros Hw Hsc Hc.
  destruct (read_scene_options _ _ _ _ Hsc) as [Hocc _].
  destruct (read_scene_candidates _ _ _ _ c Hsc Hc)
    as (_ & Htgt & _ & _ & _ & Hfill).
  rewrite Hocc in Hfill. split; [done|].
  assert (Hcol : 0 ≤ c.2.1 < width bd).
  { rewrite Htgt. simpl. apply Z.mod_pos_bound. lia. }
  destruct (decide (c.2 ∈ list_to_set (trail my) ∪ list_to_set (trail opp)
                     ∪ sneaky_corridor (width bd) (sc_corridor_y sc)))
    as [Hblocked|Hfree].
  - rewrite (flood_fill_space_start_occupied _ _ _ Hblocked) in Hfill.
    injection Hfill as <-. split; [|done]. intros _.
    rewrite !elem_of_union, !elem_of_list_to_set, elem_of_sneaky_corridor
      in Hblocked. tauto.
  - pose proof (flood_fill_space_start_free _ _ _ _ Hfree Hfill).
    split; [lia|]. intros Hon. destruct Hfree.
    rewrite !elem_of_union, !elem_of_list_to_set, elem_of_sneaky_corridor.
    tauto.
Qed.

End QueryPhases.

(** * Further properties of state ingestion and of the handlers *)

Lemma game_ext (g1 g2 : Game) :
  width (board g1) = width (board g2) →
  height (board g1) = height (board g2) →
  grid (board g1) = grid (board g2) →
  trail (agent1 g1) = trail (agent1 g2) →
  direction (agent1 g1) = direction (agent1 g2) →
  alive (agent1 g1) = alive (agent1 g2) →
  agent_length (agent1 g1) = agent_length (agent1 g2) →
  boosts_remaining (agent1 g1) = boosts_remaining (agent1 g2) →
  trail (agent2 g1) = trail (agent2 g2) →
  direction (agent2 g1) = direction (agent2 g2) →
  alive (agent2 g1) = alive (agent2 g2) →
  agent_length (agent2 g1) = agent_length (agent2 g2) →
  boosts_remaining (agent2 g1) = boosts_remaining (agent2 g2) →
  turns g1 = turns g2 →
  g1 = g2.
Proof.
  destruct g1 as [[] [] [] ?], g2 as [[] [] [] ?]; simpl.
  intros; by subst.
Qed.

(** The game a sync leaves, field by field. *)
Lemma update_game_eq (data : Payload) (gl : Globals) :
  let old := GLOBAL_GAME gl in
  GLOBAL_GAME (_update_local_game_from_post data gl) =
  mkGame
    (mkBoard (width (board old)) (height (board old))
       (default (grid (board old)) (p_board data)))
    (mkAgent (default (trail (agent1 old)) (p_agent1_trail data))
       (direction (agent1 old))
       (default (alive (agent1 old)) (p_agent1_alive data))
       (default (agent_length (agent1 old)) (p_agent1_length data))
       (default (boosts_remaining (agent1 old)) (p_agent1_boosts data)))
    (mkAgent (default (trail (agent2 old)) (p_agent2_trail data))
       (direction (agent2 old))
       (default (alive (agent2 old)) (p_agent2_alive data))
       (default (agent_length (agent2 old)) (p_agent2_length data))
       (default (boosts_remaining (agent2 old)) (p_agent2_boosts data)))
    (default (turns old) (p_turn_count data)).
Proof.
  cbv zeta. apply game_ext; cbn [board agent1 agent2 turns width height grid
    trail direction alive agent_length boosts_remaining].
  - through_update (λ g, width (board g)).
  - through_update (λ g, height (board g)).
  - through_update (λ g, grid (board g)).
  - through_update (λ g, trail (agent1 g)).
  - through_update (λ g, direction (agent1 g)).
  - through_update (λ g, alive (agent1 g)).
  - through_update (λ g, agent_length (agent1 g)).
  - through_update (λ g, boosts_remaining (agent1 g)).
  - through_update (λ g, trail (agent2 g)).
  - through_update (λ g, direction (agent2 g)).
  - through_update (λ g, alive (agent2 g)).
  - through_update (λ g, agent_length (agent2 g)).
  - through_update (λ g, boosts_remaining (agent2 g)).
  - through_update (λ g, turns g).
Qed.

Lemma update_last_posted (data : Payload) (gl : Globals) :
  LAST_POSTED_STATE (_update_local_game_from_post data gl) = data.
Proof. done. Qed.

Lemma globals_ext (g1 g2 : Globals) :
  GLOBAL_GAME g1 = GLOBAL_GAME g2 →
  LAST_POSTED_STATE g1 = LAST_POSTED_STATE g2 → g1 = g2.
Proof. destruct g1, g2; simpl; intros; by subst. Qed.

Lemma default_default {A} (x : A) (o : option A) :
  default (default x o) o = default x o.
Proof. by destruct o. Qed.


(** X22: a state sync is idempotent: applying the same payload a second
    time changes nothing. *)
Theorem update_idempotent (data : Payload) (gl : Globals) :
  _update_local_game_from_post data (_update_local_game_from_post data gl)
  = _update_local_game_from_post data gl.
Proof.
  apply globals_ext; [|by rewrite !update_last_posted].
  rewrite (update_game_eq data (_update_local_game_from_post data gl)).
  cbv zeta. rewrite (update_game_eq data gl). cbv zeta.
  cbn [board agent1 agent2 turns width height grid trail direction alive
       agent_length boosts_remaining].
  by rewrite !default_default.
Qed.



Section Handlers.
Context `{CaseClosedGame}.




(** X25: the match end ingests its body exactly as a state sync would,
    stopping at the same rejected value, and it raises exactly when the
    sync would; otherwise it answers 200, also for the bodies the sync
    refuses.  After a match end that answered 200 the next query behaves as
    the first query of a fresh process holding the same game. *)
Theorem query_after_end_is_fresh (body : Body) (st : Agent.State)
    (pn : Z) :
  Agent.globals (Agent.end_game body st).1
  = Agent.globals (Agent.receive_state body st).1
  ∧ ((Agent.end_game body st).2 = Raised
     ↔ (Agent.receive_state body st).2 = Raised)
  ∧ ((Agent.end_game body st).2 = Status 200
     ↔ (Agent.receive_state body st).2 ≠ Raised)
  ∧ ((Agent.end_game body st).2 = Status 200 →
     Agent.send_move pn (Agent.end_game body st).1
     = Agent.send_move pn
         (Agent.mkState (Agent.globals (Agent.end_game body st).1) None)).
Proof.
  assert (Hgl : Agent.globals (Agent.end_game body st).1
                = Agent.globals (Agent.receive_state body st).1).
  { unfold Agent.end_game, Agent.receive_state.
    destruct body as [| |data rejected]; try done.
    destruct (dict_truthy data rejected); [|done].
    by destruct (_update_local_game_from_post_raw _ _ _) as [gl []]. }
  assert (Hraise : (Agent.end_game body st).2 = Raised
                   ↔ (Agent.receive_state body st).2 = Raised).
  { unfold Agent.end_game, Agent.receive_state.
    destruct body as [| |data rejected]; try done.
    destruct (dict_truthy data rejected); [|done].
    by destruct (_update_local_game_from_post_raw _ _ _) as [gl []]. }
  split; [done|]. split; [done|].
  destruct (end_game_cases body st) as [(_ & Hr & Hat)|(_ & Hr & _)].
  - split.
    + split; [|done]. intros _ Hrs. apply Hraise in Hrs. congruence.
    + intros _. destruct (Agent.end_game body st) as [[gl attrs] r].
      simpl in *. by subst attrs.
  - split; [|congruence]. split; [congruence|].
    intros Hrs. destruct Hrs. by apply Hraise.
Qed.

End Handlers.

(** * Further properties of the simple agent's query *)

Section SimpleQuery.
Context `{CaseClosedGame}.

(** The scoring loop returns the largest count seen so far and the
    direction that first reached it. *)
Lemma best_move_loop_spec ds head my opp bd m0 c0 :
  width bd ≠ 0 → height bd ≠ 0 →
  let occ : gset Cell := list_to_set (trail my) ∪ list_to_set (trail opp) in
  ∃ m c,
    SampleAgent.best_move_loop ds head my opp bd m0 c0 = Ok (m, c)
    ∧ m0 ≤ m
    ∧ (∀ d, d ∈ ds →
         ∃ s, flood_fill_space (wrap_cell (width bd) (height bd) head d)
                bd occ = Ok s ∧ s ≤ m)
    ∧ ((m = m0 ∧ c = c0)
       ∨ (c ∈ ds
          ∧ flood_fill_space (wrap_cell (width bd) (height bd) head c)
              bd occ = Ok m)).
Proof.
  intros Hw Hh occ. revert m0 c0.
  induction ds as [|d ds IH]; intros m0 c0; simpl.
  - exists m0, c0. split; [done|]. split; [lia|]. split; [|by left].
    intros d Hd. by apply elem_of_nil in Hd.
  - rewrite wrap_step_nonzero by done. simpl.
    destruct (flood_fill_space_Ok (wrap_cell (width bd) (height bd) head d)
                bd occ Hw Hh) as [s Hs].
    fold occ. rewrite Hs. simpl. case_decide as Hgt.
    + destruct (IH s d) as (m & c & Hloop & Hle & Hall & Hbest).
      exists m, c. split; [done|]. split; [lia|]. split.
      * intros d' [->|Hd']%elem_of_cons; [by exists s | by apply Hall].
      * right. destruct Hbest as [[-> ->]|[Hin Hc]].
        -- split; [apply list_elem_of_here | done].
        -- split; [by apply list_elem_of_further | done].
    + destruct (IH m0 c0) as (m & c & Hloop & Hle & Hall & Hbest).
      exists m, c. split; [done|]. split; [done|]. split.
      * intros d' [->|Hd']%elem_of_cons; [|by apply Hall].
        exists s. split; [done | lia].
      * destruct Hbest as [?|[Hin Hc]]; [by left|].
        right. split; [by apply list_elem_of_further | done].
Qed.

(** A query that found safe moves wrapped at least one cell. *)
Lemma safe_moves_nonzero ds head opp_head my opp bd safe :
  SampleAgent.safe_moves_loop ds head opp_head my opp bd [] = Ok safe →
  safe ≠ [] → width bd ≠ 0 ∧ height bd ≠ 0.
Proof.
  intros Hloop Hne.
  assert (Hall : Forall (λ _, width bd ≠ 0 ∧ height bd ≠ 0) safe).
  { eapply safe_moves_loop_Forall; [exact Hloop | constructor |].
    intros d n _ Hn%wrap_step_Ok _ _ _. tauto. }
  destruct safe as [|d safe']; [done|]. by apply Forall_cons in Hall as [? _].
Qed.

(** X26: with the trails read and the safe moves found, a query of the
    simple agent raises [UnboundLocalError] exactly when there is no safe
    move and a boost is left; with no safe move and no boost it continues
    the current heading without boosting. *)
Theorem simple_agent_fallback (pn : Z) (gl : Globals) (head : Cell)
    (opp_head : option Cell) (safe : list Direction) :
  let gm := GLOBAL_GAME gl in
  let my := my_agent_of pn gm in
  let opp := opponent_of pn gm in
  last (trail my) = Some head →
  opp_head_of opp = Ok opp_head →
  SampleAgent.safe_moves_loop (non_reversing (direction my)) head opp_head
    my opp (board gm) [] = Ok safe →
  (SampleAgent.send_move pn gl = Raise UnboundLocalError
   ↔ safe = [] ∧ boosts_remaining my > 0)
  ∧ (safe = [] → boosts_remaining my ≤ 0 →
     SampleAgent.send_move pn gl = Ok (direction my, false)).
Proof.
  intros gm my opp Hhead Hopp Hsafe. unfold SampleAgent.send_move.
  fold gm my opp. rewrite Hhead. simpl. rewrite Hopp. simpl.
  rewrite Hsafe. simpl.
  destruct safe as [|d0 safe'].
  - simpl. case_decide; simpl; split; try done; naive_solver lia.
  - destruct (safe_moves_nonzero _ _ _ _ _ _ _ Hsafe) as [Hw Hh]; [done|].
    destruct (best_move_loop_spec (d0 :: safe') head my opp (board gm)
                (-1) d0 Hw Hh) as (m & c & -> & _).
    simpl. case_decide; simpl; split; try done; naive_solver.
Qed.

(** X27: when there are safe moves the simple agent answers with one of
    them, one whose fill count from its target is the largest among the
    safe moves, and appends the boost exactly when a boost is left and that
    count exceeds 10. *)
Theorem simple_agent_picks_largest_space (pn : Z) (gl : Globals)
    (head : Cell) (opp_head : option Cell) (safe : list Direction) :
  let gm := GLOBAL_GAME gl in
  let my := my_agent_of pn gm in
  let opp := opponent_of pn gm in
  let occ : gset Cell := list_to_set (trail my) ∪ list_to_set (trail opp) in
  let target d := wrap_cell (width (board gm)) (height (board gm)) head d in
  last (trail my) = Some head →
  opp_head_of opp = Ok opp_head →
  SampleAgent.safe_moves_loop (non_reversing (direction my)) head opp_head
    my opp (board gm) [] = Ok safe →
  safe ≠ [] →
  ∃ chosen m,
    SampleAgent.send_move pn gl
    = Ok (chosen, bool_decide (boosts_remaining my > 0 ∧ m > 10))
    ∧ chosen ∈ safe
    ∧ flood_fill_space (target chosen) (board gm) occ = Ok m
    ∧ ∀ d, d ∈ safe →
        ∃ s, flood_fill_space (target d) (board gm) occ = Ok s ∧ s ≤ m.
Proof.
  intros gm my opp occ target Hhead Hopp Hsafe Hne.
  destruct (safe_moves_nonzero _ _ _ _ _ _ _ Hsafe Hne) as [Hw Hh].
  unfold SampleAgent.send_move. fold gm my opp.
  rewrite Hhead. simpl. rewrite Hopp. simpl. rewrite Hsafe. simpl.
  destruct safe as [|d0 safe'] eqn:Hs; [done|].
  destruct (best_move_loop_spec (d0 :: safe') head my opp (board gm)
              (-1) d0 Hw Hh) as (m & c & Hloop & _ & Hall & Hbest).
  rewrite Hloop. simpl. exists c, m.
  assert (Hm : 0 ≤ m).
  { destruct (Hall d0 ltac:(apply list_elem_of_here)) as (s & Hfill & Hle).
    unfold flood_fill_space in Hfill.
    destruct (flood_fill_visited _ _ _); simpl in Hfill; try done.
    injection Hfill as <-. lia. }
  destruct Hbest as [[-> _]|[Hin Hc]]; [lia|].
  split; [|done].
  case_decide; simpl; f_equal; f_equal.
  - apply bool_decide_ext. tauto.
  - symmetry. apply bool_decide_eq_false. tauto.
Qed.

End SimpleQuery.

(** *** Instances of the further properties *)

Lemma trapped_scene_read :
  Agent.read_scene trapped_agent far_agent
    (synced_board 20 18 trapped_agent far_agent) = Ok trapped_scene.
Proof. vm_compute. reflexivity. Qed.

Lemma edge_scene_read :
  Agent.read_scene edge_agent far_edge_opponent
    (synced_board 8 6 edge_agent far_edge_opponent) = Ok edge_scene.
Proof. vm_compute. reflexivity. Qed.

Lemma row_scene_read :
  Agent.read_scene row_agent corner_opponent
    (synced_board 8 6 row_agent corner_opponent) = Ok row_scene.
Proof. vm_compute. reflexivity. Qed.

(** The trapped agent answers UP onto its own trail, and indeed all three
    candidates are suicidal. *)
Lemma send_move_suicidal_only_as_last_resort_witness :
  (Agent.send_move 1 trapped_state).2 = Ok UP
  ∧ Forall (suicidal_candidate (1, 1)
              (synced_board 20 18 trapped_agent far_agent)
              (Agent.sc_occupied_trails trapped_scene))
      [(0, UP, (1, 0)); (0, DOWN, (1, 2)); (0, RIGHT, (2, 1))].
Proof.
  assert (Hans : (Agent.send_move 1 trapped_state).2 = Ok UP)
    by (vm_compute; reflexivity).
  split; [exact Hans|].
  apply (send_move_suicidal_only_as_last_resort 1 trapped_state
           trapped_scene UP).
  - exact trapped_scene_read.
  - discriminate.
  - exact Hans.
  - vm_compute. reflexivity.
Defined.

(** The query of [close_state] leaves floodfill: the opponent is alive with
    its head in column 1, next to the agent's column 0. *)
Lemma floodfill_left_only_near_opponent_witness :
  ∃ sc oh,
    Agent.read_scene edge_agent close_opponent
      (synced_board 8 6 edge_agent close_opponent) = Ok sc
    ∧ Agent.sc_move_options sc ≠ []
    ∧ alive close_opponent = true
    ∧ last (trail close_opponent) = Some oh
    ∧ Z.abs ((Agent.sc_head sc).1 - oh.1) ≤ 1.
Proof.
  apply (floodfill_left_only_near_opponent 1 close_state).
  - reflexivity.
  - vm_compute. discriminate.
Defined.

Lemma post_corridor_fill_query_changes_nothing_witness :
  (Agent.send_move 1
     (state_of escaping_agent exit_opponent
        (Some (Agent.post_corridor_fill, 1)))).1
  = state_of escaping_agent exit_opponent (Some (Agent.post_corridor_fill, 1)).
Proof.
  apply (post_corridor_fill_query_changes_nothing 1). reflexivity.
Defined.

(** On the safe row, left of the exit column, the query records the bias 1
    and answers RIGHT. *)
Lemma escape_bias_recorded_witness :
  Agent.escape_dx_of row_state = 0
  ∧ (Agent.send_move 1 row_state).2 = Ok RIGHT
  ∧ Agent.escape_dx_of (Agent.send_move 1 row_state).1 = 1.
Proof.
  split; [reflexivity|]. split; [vm_compute; reflexivity|].
  rewrite (escape_bias_recorded 1 row_state row_scene).
  - reflexivity.
  - exact row_scene_read.
  - discriminate.
Defined.

Lemma one_cell_scene_read :
  Agent.read_scene lone_agent gone_agent
    (synced_board 1 1 lone_agent gone_agent) = Ok one_cell_scene.
Proof. vm_compute. reflexivity. Qed.

(** The query of [edge_state] stays in floodfill and answers UP, the
    direction of its first candidate; the query on the board of one cell has
    no candidate and answers RIGHT, a step onto its own head. *)
Lemma floodfill_answer_is_candidate_witness :
  ((∃ c : Agent.Candidate,
      c ∈ [(36, UP, (0, 4)); (36, DOWN, (0, 0)); (36, LEFT, (7, 5))]
      ∧ c.1.2 = UP)
   ∧ value UP ≠ neg_delta (value LEFT)
   ∧ wrap_cell 8 6 (0, 5) UP ≠ (0, 5))
  ∧ (Agent.send_move 1 one_cell_state).2 = Ok RIGHT
  ∧ wrap_cell 1 1 (0, 0) RIGHT = (0, 0).
Proof.
  split; [|split; [vm_compute; reflexivity|]].
  - apply (floodfill_answer_is_candidate 1 edge_state edge_scene UP).
    + exact edge_scene_read.
    + vm_compute. reflexivity.
    + discriminate.
    + vm_compute. reflexivity.
  - apply (floodfill_answer_is_candidate 1 one_cell_state one_cell_scene
             RIGHT).
    + exact one_cell_scene_read.
    + vm_compute. reflexivity.
    + reflexivity.
    + discriminate.
Defined.

(** On the safe row the steps along the row score 0, the step off it 32. *)
Lemma move_options_scores_witness :
  flood_fill_space (3, 3) (synced_board 8 6 row_agent corner_opponent)
    (list_to_set (trail row_agent) ∪ list_to_set (trail corner_opponent)
     ∪ Agent.sneaky_corridor 8 3) = Ok 0
  ∧ (0 = 0
     ↔ (3, 3) ∈ trail row_agent ∨ (3, 3) ∈ trail corner_opponent ∨ 3 = 3).
Proof.
  apply (move_options_scores row_agent corner_opponent
           (synced_board 8 6 row_agent corner_opponent) row_scene
           (0, RIGHT, (3, 3))).
  - reflexivity.
  - exact row_scene_read.
  - set_solver.
Defined.


(** After a match end with an empty dict as its body, the query of a match
    that was in panic is the first query of a fresh process. *)
Lemma query_after_end_is_fresh_witness :
  Agent.send_move 1
    (Agent.end_game (JsonDict empty_payload []) exit_blocked_state).1
  = Agent.send_move 1
      (Agent.mkState
         (Agent.globals
            (Agent.end_game (JsonDict empty_payload [])
               exit_blocked_state).1)
         None).
Proof.
  pose proof (query_after_end_is_fresh (JsonDict empty_payload [])
                exit_blocked_state 1) as (_ & _ & _ & Hfresh).
  apply Hfresh. reflexivity.
Defined.

Lemma simple_agent_fallback_witness :
  (SampleAgent.send_move 1 trapped_globals = Raise UnboundLocalError
   ↔ ([] : list Direction) = [] ∧ boosts_remaining trapped_agent > 0)
  ∧ (([] : list Direction) = [] → boosts_remaining trapped_agent ≤ 0 →
     SampleAgent.send_move 1 trapped_globals = Ok (RIGHT, false)).
Proof.
  apply (simple_agent_fallback 1 trapped_globals (1, 1) (Some (10, 10)) []).
  - reflexivity.
  - reflexivity.
  - vm_compute. reflexivity.
Defined.

(** Heading right at [(5, 5)] with the opponent's head at [(7, 5)], the
    simple agent has the safe moves UP and DOWN and takes one of them. *)
Lemma simple_agent_picks_largest_space_witness :
  ∃ chosen m,
    SampleAgent.send_move 1 corner_globals
    = Ok (chosen, bool_decide (boosts_remaining corner_agent > 0 ∧ m > 10))
    ∧ chosen ∈ [UP; DOWN]
    ∧ flood_fill_space (wrap_cell 8 8 (5, 5) chosen) open_board
        (list_to_set (trail corner_agent) ∪ list_to_set (trail near_agent))
      = Ok m
    ∧ ∀ d, d ∈ [UP; DOWN] →
        ∃ s, flood_fill_space (wrap_cell 8 8 (5, 5) d) open_board
               (list_to_set (trail corner_agent)
                ∪ list_to_set (trail near_agent)) = Ok s
             ∧ s ≤ m.
Proof.
  apply (simple_agent_picks_largest_space 1 corner_globals (5, 5)
           (Some (7, 5)) [UP; DOWN]).
  - reflexivity.
  - reflexivity.
  - exact corner_safe_moves.
  - discriminate.
Defined.

(** * Further properties of the escape and fill steps *)

Section EscapeSteps.
Context `{CaseClosedGame}.
Import Agent.

(** A proposal whose target is not suicidal is the answer. *)
Lemma phased_decision_takes_safe_proposal phase dx head oh cy ex board occ
    mo cur t :
  (decide_by_phase
     (infiltration_check (panic_trigger phase (horiz_sep head oh))
        head oh cy ex)
     dx head cy ex board occ mo cur).2 = (mo, Some t) →
  (phased_decision phase dx head oh cy ex board occ mo cur).2 = Ok t.
Proof.
  unfold phased_decision.
  destruct (decide_by_phase _ _ _ _ _ _ _ _ _) as [[p e] [mo' ch]].
  simpl. by intros [= -> ->].
Qed.

(** X28: the escape steps.  A query that is in panic at the decision and
    whose head is off the safe row answers DOWN when its row number is
    smaller than the safe row's and UP otherwise; on the safe row and off
    the exit column it answers RIGHT when its column number is smaller than
    the exit column's and LEFT otherwise; in both cases provided the target
    of that step is not suicidal, and the phase stays panic. *)
Theorem panic_steps_toward_exit (pn : Z) (st : State) (sc : Scene) :
  let gm := GLOBAL_GAME (globals st) in
  let head := sc_head sc in
  let cy := sc_corridor_y sc in
  let ex := sc_exit_x sc in
  let step :=
    if decide (head.2 ≠ cy)
    then (if decide (head.2 < cy) then DOWN else UP)
    else (if decide (head.1 < ex) then RIGHT else LEFT) in
  read_scene (my_agent_of pn gm) (opponent_of pn gm) (board gm) = Ok sc →
  sc_move_options sc ≠ [] →
  infiltration_check
    (panic_trigger (phase_of st) (horiz_sep head (sc_opp_head sc)))
    head (sc_opp_head sc) cy ex = panic →
  head.2 ≠ cy ∨ head.1 ≠ ex →
  is_suicidal head
    (wrap_cell (width (board gm)) (height (board gm)) head step)
    (board gm) (sc_occupied_trails sc) = false →
  (send_move pn st).2 = Ok step
  ∧ phase_of (send_move pn st).1 = panic.
Proof.
  intros gm head cy ex step Hsc Hne Hp2 Hoff Hsafe.
  rewrite send_move_answer, send_move_phase. fold gm.
  rewrite Hsc. destruct (sc_move_options sc) as [|c0 mo] eqn:Hmo; [done|].
  rewrite <- Hmo. split.
  - apply phased_decision_takes_safe_proposal. fold head cy ex.
    rewrite Hp2. simpl. unfold panic_tentative. fold head cy ex.
    subst step. unfold checked_or_choose.
    destruct (decide (head.2 ≠ cy)) as [Hrow|Hrow]; simpl.
    + by rewrite Hsafe.
    + rewrite decide_True by tauto. simpl. by rewrite Hsafe.
  - unfold phase_after. fold head cy ex. rewrite Hp2.
    rewrite decide_False; [done | tauto].
Qed.

(** X29: the fill step.  With the unit deltas for LEFT and RIGHT and the
    head's row on the board, a query in post_corridor_fill answers with the
    horizontal step along the recorded bias (RIGHT when the bias is 0 or 1,
    LEFT when it is -1) whenever the target of that step is not
    suicidal. *)
Theorem post_fill_follows_bias (pn : Z) (st : State) (sc : Scene) :
  let gm := GLOBAL_GAME (globals st) in
  let head := sc_head sc in
  let step := if decide (escape_dx_of st = -1) then LEFT else RIGHT in
  value RIGHT = (1, 0) → value LEFT = (-1, 0) →
  read_scene (my_agent_of pn gm) (opponent_of pn gm) (board gm) = Ok sc →
  sc_move_options sc ≠ [] →
  phase_of st = post_corridor_fill →
  escape_dx_of st = -1 ∨ escape_dx_of st = 0 ∨ escape_dx_of st = 1 →
  head.2 `mod` height (board gm) = head.2 →
  is_suicidal head
    (wrap_cell (width (board gm)) (height (board gm)) head step)
    (board gm) (sc_occupied_trails sc) = false →
  (send_move pn st).2 = Ok step.
Proof.
  intros gm head step Hr Hl Hsc Hne Hph Hdx Hrow Hsafe.
  rewrite send_move_answer. fold gm.
  rewrite Hsc. destruct (sc_move_options sc) as [|c0 mo] eqn:Hmo; [done|].
  rewrite <- Hmo. apply phased_decision_takes_safe_proposal. fold head.
  rewrite Hph.
  assert (Htrig : ∀ sep, panic_trigger post_corridor_fill sep
                         = post_corridor_fill).
  { intros [s|]; simpl; [|done]. first [done | case_decide; naive_solver]. }
  assert (Hinf : ∀ hd oh cy ex,
    infiltration_check post_corridor_fill hd oh cy ex = post_corridor_fill).
  { intros. unfold infiltration_check.
    by destruct (corridor_blocked _ _ _ _ _). }
  rewrite Htrig, Hinf. simpl.
  set (dx := if decide (escape_dx_of st = 0) then 1 else escape_dx_of st).
  assert (Hpref : ((head.1 + dx) `mod` width (board gm), head.2)
                  = wrap_cell (width (board gm)) (height (board gm)) head step).
  { unfold wrap_cell, step, dx.
    destruct Hdx as [Hd|[Hd|Hd]]; rewrite Hd; simpl;
      rewrite ?Hr, ?Hl; simpl; by rewrite Z.add_0_r, Hrow. }
  assert (Hnext : bfs_next_move_on_board head (sc_occupied_trails sc)
                    (board gm) dx = Some step).
  { unfold bfs_next_move_on_board. rewrite Hpref, Hsafe. simpl. f_equal.
    unfold step, dx. destruct Hdx as [Hd|[Hd|Hd]]; rewrite Hd; done. }
  rewrite Hnext. unfold checked_or_choose. by rewrite Hsafe.
Qed.

(** X30: the fill planner cannot raise inside a query.  Once the scene of a
    query has been read, no dimension of the board is zero, so the call
    [bfs_next_move(head, occupied_trails, board, escape_dx or 1)] of the
    fill phase returns, a direction or [None], and the decision of that
    phase goes on with what it returned. *)
Theorem bfs_next_move_returns_in_query (pn : Z) (st : State) (sc : Scene)
    (dx : Z) (mo : list Candidate) (cur : Direction) :
  let gm := GLOBAL_GAME (globals st) in
  let head := sc_head sc in
  let occ := sc_occupied_trails sc in
  read_scene (my_agent_of pn gm) (opponent_of pn gm) (board gm) = Ok sc →
  ∃ next_move,
    bfs_next_move head occ (board gm) (if decide (dx = 0) then 1 else dx)
    = Ok next_move
    ∧ (decide_by_phase post_corridor_fill dx head (sc_corridor_y sc)
         (sc_exit_x sc) (board gm) occ mo cur).2
      = checked_or_choose next_move head (board gm) occ mo cur.
Proof.
  intros gm head occ Hsc.
  apply read_scene_fields in Hsc as (_ & _ & _ & Hw & Hh).
  eexists. split; [by apply bfs_next_move_on_board_eq | done].
Qed.

End EscapeSteps.

Lemma panic_steps_toward_exit_witness :
  (Agent.send_move 1 row_state).2 = Ok RIGHT
  ∧ Agent.phase_of (Agent.send_move 1 row_state).1 = Agent.panic.
Proof.
  apply (panic_steps_toward_exit 1 row_state row_scene).
  - exact row_scene_read.
  - discriminate.
  - reflexivity.
  - right. discriminate.
  - vm_compute. reflexivity.
Defined.

(** Filling with the bias -1 from [(2, 0)]: the cell [(1, 0)] is free and the
    answer is LEFT. *)
Lemma post_fill_follows_bias_witness :
  (Agent.send_move 1
     (state_of escaping_agent exit_opponent
        (Some (Agent.post_corridor_fill, -1)))).2 = Ok LEFT.
Proof.
  apply (post_fill_follows_bias 1
           (state_of escaping_agent exit_opponent
              (Some (Agent.post_corridor_fill, -1)))
           exit_blocked_scene).
  - reflexivity.
  - reflexivity.
  - exact exit_blocked_scene_read.
  - discriminate.
  - reflexivity.
  - by left.
  - reflexivity.
  - vm_compute. reflexivity.
Defined.

(** In the fill phase of the match on the 8 x 6 board, with the bias to the
    left, the planner returns LEFT and the decision takes it. *)
Lemma bfs_next_move_returns_in_query_witness :
  ∃ next_move,
    Agent.bfs_next_move (2, 0)
      (list_to_set (trail escaping_agent) ∪ list_to_set (trail exit_opponent))
      (synced_board 8 6 escaping_agent exit_opponent) (-1)
    = Ok next_move
    ∧ (Agent.decide_by_phase Agent.post_corridor_fill (-1) (2, 0) 3 5
         (synced_board 8 6 escaping_agent exit_opponent)
         (list_to_set (trail escaping_agent)
          ∪ list_to_set (trail exit_opponent))
         (Agent.sc_move_options exit_blocked_scene) LEFT).2
      = Agent.checked_or_choose next_move (2, 0)
          (synced_board 8 6 escaping_agent exit_opponent)
          (list_to_set (trail escaping_agent)
           ∪ list_to_set (trail exit_opponent))
          (Agent.sc_move_options exit_blocked_scene) LEFT.
Proof.
  apply (bfs_next_move_returns_in_query 1 exit_blocked_state
           exit_blocked_scene (-1)
           (Agent.sc_move_options exit_blocked_scene) LEFT).
  exact exit_blocked_scene_read.
Defined.
